(** * CoastMax: the coasting core (physics.py, geo.py, run_area.py)

    A shallow embedding of the numeric core of the repository and the
    properties its specification states about it.

    Numbers.  The Python code computes on binary floating point.  Here a
    float is a rational ([Q]), and the code is embedded twice.  The first
    embedding carries out the arithmetic the code spells out exactly:
    rounding, overflow, infinities and not-a-number are not represented.
    What is proved of it holds of the interpreter where it rests on
    comparisons, selections and control flow, which rounding leaves alone;
    a sum of rounded terms is another matter.  The second embedding, of
    physics.py, rounds the result of every operation with a rounding
    function: with [round_b64] it computes what the interpreter computes in
    binary64, short of overflow and of subnormal numbers, and it is where
    the statements that rounding breaks are refuted.  An [Optional[float]]
    is an [option Q]; a missing or non-finite elevation sample is [None].
    Equality of rationals is [==] ([Qeq]).  The literals [1e-6], [1e-9] and
    [1e-12] of the code are written [1 # 1000000] and so on.

    Library calls.  [math.sqrt] is a variable [sqrt] of the section that
    uses it, with the two facts about square roots the proofs rely on;
    [math.hypot x y] is [sqrt (x*x + y*y)].  The shapely [LineString] is its
    coordinate list, with [length] and [interpolate] written out below. *)

From Stdlib Require Import QArith Qround Qminmax Qabs Qpower ZArith.
From Stdlib Require Import Lia Lqa List Bool.
From Stdlib Require Import Sorted.
Import ListNotations.
Open Scope Q_scope.

(** ** Python values *)

(** The exceptions the modelled functions can raise. *)
Inductive exn : Type :=
  | ValueError
  | ZeroDivisionError
  | IndexError
  | RasterError.

(** A call either returns or raises. *)
Inductive result (A : Type) : Type :=
  | Ok (a : A)
  | Raise (e : exn).
Arguments Ok {A} a.
Arguments Raise {A} e.

Definition bind {A B : Type} (r : result A) (k : A -> result B) : result B :=
  match r with
  | Ok a => k a
  | Raise e => Raise e
  end.

Notation "'do' x <- r ; k" := (bind r (fun x => k))
  (at level 10, x pattern, r at level 100, k at level 200).

(** A loop that appends [f x] for each [x] and stops at the first raise. *)
Fixpoint collect {A B : Type} (f : A -> result B) (l : list A)
    : result (list B) :=
  match l with
  | [] => Ok []
  | x :: tl =>
      do y <- f x;
      do ys <- collect f tl;
      Ok (y :: ys)
  end.

(** The assignment [l[i] = x] at an index within the list. *)
Fixpoint list_set {A : Type} (l : list A) (i : nat) (x : A) : list A :=
  match l, i with
  | [], _ => []
  | _ :: tl, O => x :: tl
  | h :: tl, S i' => h :: list_set tl i' x
  end.

(** [x < y] on floats, as a boolean. *)
Definition Qlt_bool (x y : Q) : bool := negb (Qle_bool y x).

(** Python's [max(a, b)]: the first argument unless the second is greater. *)
Definition py_max (a b : Q) : Q := if Qlt_bool a b then b else a.

(** Python's [min(a, b)]: the first argument unless the second is smaller. *)
Definition py_min (a b : Q) : Q := if Qlt_bool b a then b else a.

(** A square root that computes, for running the definitions on examples:
    the root of [n/d] rounded down to a multiple of [1/d].  It is exact when
    [n*d] is a perfect square. *)
Definition sqrt_down (x : Q) : Q :=
  Z.sqrt (Qnum x * Zpos (Qden x)) # Qden x.

(** ** params.py *)

Record PhysicalParams : Type := mkParams {
  mass : Q;
  crr : Q;
  cda : Q;
  rho : Q;
  mu_curve : Q;
  g : Q;
  dt : Q;
  vmax_cap : Q
}.

(** The defaults of the dataclass. *)
Definition default_params : PhysicalParams :=
  mkParams 85 0.004 0.30 1.225 0.35 9.80665 0.1 35.

(** The defaults without rolling resistance and without drag. *)
Definition frictionless_params : PhysicalParams :=
  mkParams 85 0 0 1.225 0.35 9.80665 0.1 35.

(** The parameter ranges under which the specification states its
    properties. *)
Definition valid_params (p : PhysicalParams) : Prop :=
  0 < mass p /\ 0 <= crr p /\ 0 <= cda p /\ 0 < rho p /\
  0 < g p /\ 0 < dt p /\ 0 < vmax_cap p.

(** ** physics.py: one integration step *)

(** [step_velocity v slope_sin slope_cos p dt v_cap_local] returns
    [(v_new, a)].  The quotient by [2*p.mass] raises when the mass is zero. *)
Definition step_velocity (v slope_sin slope_cos : Q) (p : PhysicalParams)
    (dt : Q) (v_cap_local : option Q) : result (Q * Q) :=
  if Qeq_bool (2 * mass p) 0 then Raise ZeroDivisionError
  else
    let a := - g p * slope_sin - crr p * g p * slope_cos
             - (rho p * cda p / (2 * mass p)) * v * v in
    let v_new := py_max 0 (v + a * dt) in
    let cap := match v_cap_local with
               | None => vmax_cap p
               | Some c => py_min (vmax_cap p) c
               end in
    let v_new := if Qlt_bool cap v_new then cap else v_new in
    Ok (v_new, a).

(** ** physics.py: the simulation of one edge *)

(** The loop variables [v], [t], [s_acc] and [vmax_seen] of
    [simulate_segment]; the function returns them in the order
    [(s_acc, t, v, vmax_seen)]. *)
Record sim_state : Type := mkSim {
  sim_v : Q;
  sim_t : Q;
  sim_s_acc : Q;
  sim_vmax_seen : Q
}.

(** A profile entry [(ds, s_sin, s_cos)]. *)
Definition entry : Type := (Q * Q * Q)%type.

(** The guard [s_local<ds and v>0.0] of the [while] loop. *)
Definition guard (e : entry) (st : sim_state) (s_local : Q) : bool :=
  Qlt_bool s_local (fst (fst e)) && Qlt_bool 0 (sim_v st).

(** One pass through the body of the [while] loop, entered with the guard
    true.  The result is the state after the body and the new [s_local], or
    [None] for [s_local] when the body leaves the loop by [break]. *)
Definition loop_body (e : entry) (p : PhysicalParams) (v_cap_curve : option Q)
    (st : sim_state) (s_local : Q) : result (sim_state * option Q) :=
  let '(ds, s_sin, s_cos) := e in
  do (v, a) <- step_velocity (sim_v st) s_sin s_cos p (dt p) v_cap_curve;
  let ds_step := v * dt p in
  if Qle_bool ds_step (1 # 1000000) then
    Ok (mkSim 0 (sim_t st) (sim_s_acc st) (sim_vmax_seen st), None)
  else
    let s_local := s_local + ds_step in
    let s_acc := sim_s_acc st + ds_step in
    let t := sim_t st + dt p in
    let vmax_seen := py_max (sim_vmax_seen st) v in
    if Qlt_bool ds s_local then
      let surplus := s_local - ds in
      let t := t - surplus / py_max v (1 # 1000000) in
      let s_acc := s_acc - surplus in
      Ok (mkSim v t s_acc vmax_seen, Some ds)
    else
      Ok (mkSim v t s_acc vmax_seen, Some s_local).

(** The [while s_local<ds and v>0.0] loop, unrolled at most [fuel] times. *)
Fixpoint while_loop (fuel : nat) (e : entry) (p : PhysicalParams)
    (v_cap_curve : option Q) (st : sim_state) (s_local : Q)
    : result sim_state :=
  match fuel with
  | O => Ok st
  | S fuel' =>
      if guard e st s_local then
        do (st', next) <- loop_body e p v_cap_curve st s_local;
        match next with
        | None => Ok st'
        | Some s_local' => while_loop fuel' e p v_cap_curve st' s_local'
        end
      else Ok st
  end.

(** Every pass that does not [break] moves [s_local] forward by more than
    1e-6 or to [ds], so the guard is evaluated at most this many times. *)
Definition substep_bound (ds s_local : Q) : nat :=
  S (Z.to_nat (Qceiling ((ds - s_local) / (1 # 1000000)))).

(** ** Binary floating point *)

(** The definitions above compute on exact rationals.  The ones below take
    the rounding of the floats as a function [rnd] and apply it to the
    result of every arithmetic operation and to every decimal literal, in
    the order in which Python evaluates them.  With [rnd] the identity they
    are the definitions above; with [round_b64] they are the binary64
    arithmetic of the interpreter, as long as no result overflows or falls
    into the subnormal range. *)

(** [2^k] for an integer [k] of either sign. *)
Definition pow2 (k : Z) : Q := 2 ^ k.

(** The nearest integer, a tie going to the even one. *)
Definition round_even (x : Q) : Z :=
  let f := Qfloor x in
  match Qcompare (x - inject_Z f) (1 # 2) with
  | Lt => f
  | Gt => (f + 1)%Z
  | Eq => if Z.even f then f else (f + 1)%Z
  end.

(** The exponent [e] with [2^e <= x < 2^(e+1)], for [x > 0]. *)
Definition binade (x : Q) : Z :=
  let e := (Z.log2 (Qnum x) - Z.log2 (Zpos (Qden x)))%Z in
  if Qle_bool (pow2 e) x then e else (e - 1)%Z.

(** The nearest number with a significand of 53 bits, for [x > 0]. *)
Definition round_pos (x : Q) : Q :=
  let k := (52 - binade x)%Z in
  Qred (inject_Z (round_even (x * pow2 k)) * pow2 (- k)).

(** Rounding to binary64, to nearest with ties to even. *)
Definition round_b64 (x : Q) : Q :=
  match Qcompare x 0 with
  | Eq => 0
  | Gt => round_pos x
  | Lt => - round_pos (- x)
  end.

(** What the proofs use of a rounding: it keeps the order, it leaves a
    rounded number as it is, and it leaves zero as it is. *)
Definition rounding (rnd : Q -> Q) : Prop :=
  (forall x y, x <= y -> rnd x <= rnd y) /\
  (forall x, rnd (rnd x) == rnd x) /\
  rnd 0 == 0.

(** No rounding. *)
Definition no_rounding (x : Q) : Q := x.

(** [step_velocity] with every operation rounded. *)
Definition step_velocity_fl (rnd : Q -> Q) (v slope_sin slope_cos : Q)
    (p : PhysicalParams) (dt : Q) (v_cap_local : option Q)
    : result (Q * Q) :=
  if Qeq_bool (rnd (2 * mass p)) 0 then Raise ZeroDivisionError
  else
    let a := rnd (rnd (rnd (- g p * slope_sin)
                       - rnd (rnd (crr p * g p) * slope_cos))
                  - rnd (rnd (rnd (rnd (rho p * cda p) / rnd (2 * mass p))
                              * v)
                         * v)) in
    let v_new := py_max 0 (rnd (v + rnd (a * dt))) in
    let cap := match v_cap_local with
               | None => vmax_cap p
               | Some c => py_min (vmax_cap p) c
               end in
    let v_new := if Qlt_bool cap v_new then cap else v_new in
    Ok (v_new, a).

(** The body of the [while] loop with every operation rounded. *)
Definition loop_body_fl (rnd : Q -> Q) (e : entry) (p : PhysicalParams)
    (v_cap_curve : option Q) (st : sim_state) (s_local : Q)
    : result (sim_state * option Q) :=
  let '(ds, s_sin, s_cos) := e in
  do (v, a) <- step_velocity_fl rnd (sim_v st) s_sin s_cos p (dt p)
                 v_cap_curve;
  let ds_step := rnd (v * dt p) in
  if Qle_bool ds_step (rnd (1 # 1000000)) then
    Ok (mkSim 0 (sim_t st) (sim_s_acc st) (sim_vmax_seen st), None)
  else
    let s_local := rnd (s_local + ds_step) in
    let s_acc := rnd (sim_s_acc st + ds_step) in
    let t := rnd (sim_t st + dt p) in
    let vmax_seen := py_max (sim_vmax_seen st) v in
    if Qlt_bool ds s_local then
      let surplus := rnd (s_local - ds) in
      let t := rnd (t - rnd (surplus / py_max v (rnd (1 # 1000000)))) in
      let s_acc := rnd (s_acc - surplus) in
      Ok (mkSim v t s_acc vmax_seen, Some ds)
    else
      Ok (mkSim v t s_acc vmax_seen, Some s_local).

(** The [while] loop on rounded numbers.  A rounded sum can leave [s_local]
    where it was, so no number of passes is known beforehand: the result is
    [None] when the loop has not been left after [fuel] passes. *)
Fixpoint while_loop_fl (rnd : Q -> Q) (fuel : nat) (e : entry)
    (p : PhysicalParams) (v_cap_curve : option Q) (st : sim_state)
    (s_local : Q) : option (result sim_state) :=
  match fuel with
  | O => None
  | S fuel' =>
      if guard e st s_local then
        match loop_body_fl rnd e p v_cap_curve st s_local with
        | Raise x => Some (Raise x)
        | Ok (st', None) => Some (Ok st')
        | Ok (st', Some s_local') =>
            while_loop_fl rnd fuel' e p v_cap_curve st' s_local'
        end
      else Some (Ok st)
  end.

(** The parameters and a profile entry as the floats nearest to their
    decimal values. *)
Definition params_b64 (p : PhysicalParams) : PhysicalParams :=
  mkParams (round_b64 (mass p)) (round_b64 (crr p)) (round_b64 (cda p))
    (round_b64 (rho p)) (round_b64 (mu_curve p)) (round_b64 (g p))
    (round_b64 (dt p)) (round_b64 (vmax_cap p)).

Definition entry_b64 (e : entry) : entry :=
  let '(ds, s_sin, s_cos) := e in
  (round_b64 ds, round_b64 s_sin, round_b64 s_cos).

Section Core.

(** [math.sqrt]. *)
Variable sqrt : Q -> Q.

(** [math.hypot]. *)
Definition hypot (x y : Q) : Q := sqrt (x * x + y * y).

(** The local speed cap of entry [idx]. *)
Definition curve_cap (p : PhysicalParams) (radii : option (list (option Q)))
    (idx : nat) : option Q :=
  match radii with
  | None => None
  | Some rs =>
      let r := if (idx <? length rs)%nat then nth idx rs None else None in
      match r with
      | Some r =>
          if Qlt_bool 0 r then Some (sqrt (py_max 0 (mu_curve p * g p * r)))
          else None
      | None => None
      end
  end.

(** The [for idx,(ds,s_sin,s_cos) in enumerate(profile)] loop, from entry
    [idx] on. *)
Fixpoint for_loop (profile : list entry) (p : PhysicalParams)
    (radii : option (list (option Q))) (idx : nat) (st : sim_state)
    : result sim_state :=
  match profile with
  | [] => Ok st
  | e :: rest =>
      let v_cap_curve := curve_cap p radii idx in
      do st' <- while_loop (substep_bound (fst (fst e)) 0) e p v_cap_curve
                  st 0;
      if Qle_bool (sim_v st') 0 then Ok st'
      else for_loop rest p radii (S idx) st'
  end.

(** The simulation taken up inside entry [idx], which is [e], at the local
    distance [s_local]: the remaining passes of the [while] loop of [e],
    then the entries after it. *)
Definition resume_in_entry (e : entry) (rest : list entry)
    (p : PhysicalParams) (radii : option (list (option Q))) (idx : nat)
    (st : sim_state) (s_local : Q) : result sim_state :=
  do st' <- while_loop (substep_bound (fst (fst e)) s_local) e p
              (curve_cap p radii idx) st s_local;
  if Qle_bool (sim_v st') 0 then Ok st'
  else for_loop rest p radii (S idx) st'.

(** [simulate_segment profile v0 p radii] returns
    [(s_acc, t, v, vmax_seen)]. *)
Definition simulate_segment (profile : list entry) (v0 : Q)
    (p : PhysicalParams) (radii : option (list (option Q)))
    : result (Q * Q * Q * Q) :=
  let st := mkSim v0 0 0 v0 in
  do st' <- for_loop profile p radii 0 st;
  Ok (sim_s_acc st', sim_t st', sim_v st', sim_vmax_seen st').

(** What [simulate_segment] keeps true of its loop variables. *)
Definition outcome_bounds (v0 : Q) (st : sim_state) : Prop :=
  0 <= sim_v st /\ 0 <= sim_t st /\ 0 <= sim_s_acc st /\
  v0 <= sim_vmax_seen st.

(** The sum of the [ds] of a profile. *)
Definition sum_ds (profile : list entry) : Q :=
  fold_right (fun e acc => fst (fst e) + acc) 0 profile.

(** [at_guard profile v0 p radii idx e rest st s_local]: the run of
    [simulate_segment profile v0 p radii] evaluates the guard of the [while]
    loop in entry [idx], which is [e] and is followed by [rest], with the
    loop variables [st] and [s_local]. *)
Inductive at_guard (profile : list entry) (v0 : Q) (p : PhysicalParams)
    (radii : option (list (option Q)))
    : nat -> entry -> list entry -> sim_state -> Q -> Prop :=
  | at_first e rest :
      profile = e :: rest ->
      at_guard profile v0 p radii 0 e rest (mkSim v0 0 0 v0) 0
  | at_next_pass idx e rest st s_local st' s_local' :
      at_guard profile v0 p radii idx e rest st s_local ->
      guard e st s_local = true ->
      loop_body e p (curve_cap p radii idx) st s_local
        = Ok (st', Some s_local') ->
      at_guard profile v0 p radii idx e rest st' s_local'
  | at_next_entry idx e e' rest st s_local :
      at_guard profile v0 p radii idx e (e' :: rest) st s_local ->
      guard e st s_local = false ->
      Qle_bool (sim_v st) 0 = false ->
      at_guard profile v0 p radii (S idx) e' rest st 0.

(** ** physics.py on rounded numbers *)

(** The local speed cap with the products rounded; [sqrt] stands for
    [math.sqrt], which returns a float. *)
Definition curve_cap_fl (rnd : Q -> Q) (p : PhysicalParams)
    (radii : option (list (option Q))) (idx : nat) : option Q :=
  match radii with
  | None => None
  | Some rs =>
      let r := if (idx <? length rs)%nat then nth idx rs None else None in
      match r with
      | Some r =>
          if Qlt_bool 0 r
          then Some (sqrt (py_max 0 (rnd (rnd (mu_curve p * g p) * r))))
          else None
      | None => None
      end
  end.

(** The [for] loop on rounded numbers, each [while] loop with [fuel]
    passes at most. *)
Fixpoint for_loop_fl (rnd : Q -> Q) (fuel : nat) (profile : list entry)
    (p : PhysicalParams) (radii : option (list (option Q))) (idx : nat)
    (st : sim_state) : option (result sim_state) :=
  match profile with
  | [] => Some (Ok st)
  | e :: rest =>
      match while_loop_fl rnd fuel e p (curve_cap_fl rnd p radii idx) st 0
      with
      | None => None
      | Some (Raise x) => Some (Raise x)
      | Some (Ok st') =>
          if Qle_bool (sim_v st') 0 then Some (Ok st')
          else for_loop_fl rnd fuel rest p radii (S idx) st'
      end
  end.

(** [simulate_segment] on rounded numbers. *)
Definition simulate_segment_fl (rnd : Q -> Q) (fuel : nat)
    (profile : list entry) (v0 : Q) (p : PhysicalParams)
    (radii : option (list (option Q))) : option (result (Q * Q * Q * Q)) :=
  match for_loop_fl rnd fuel profile p radii 0 (mkSim v0 0 0 v0) with
  | None => None
  | Some (Raise x) => Some (Raise x)
  | Some (Ok st') =>
      Some (Ok (sim_s_acc st', sim_t st', sim_v st', sim_vmax_seen st'))
  end.

(** What the rounded run keeps true of its loop variables at the guard of
    an entry of length [ds].  The time is not part of
    it. *)
Definition rounded_bounds (v0 ds : Q) (st : sim_state) (s_local : Q) : Prop :=
  0 <= sim_v st /\ 0 <= sim_s_acc st /\ v0 <= sim_vmax_seen st /\
  (s_local < ds -> 0 <= s_local /\ s_local <= sim_s_acc st).

(** ** geo.py: lines and points *)

(** A shapely [Point]: [p.x] and [p.y]. *)
Definition Point : Type := (Q * Q)%type.
Definition px (a : Point) : Q := fst a.
Definition py (a : Point) : Q := snd a.

(** Two points at the same place. *)
Definition same_location (a b : Point) : Prop :=
  px a == px b /\ py a == py b.

(** A shapely [LineString], as [list(line.coords)]. *)
Definition LineString : Type := list Point.

(** [a.distance(b)]. *)
Definition distance (a b : Point) : Q := hypot (px b - px a) (py b - py a).

(** [line.length]: the sum of the lengths of the segments. *)
Fixpoint line_length (line : LineString) : Q :=
  match line with
  | a :: (b :: _) as tl => distance a b + line_length tl
  | _ => 0
  end.

(** The point of segment [a b] at the fraction [frac] of its length. *)
Definition point_along (a b : Point) (frac : Q) : Point :=
  if Qle_bool frac 0 then a
  else if Qle_bool 1 frac then b
  else ((px b - px a) * frac + px a, (py b - py a) * frac + py a).

(** The walk along the segments that locates the arc length [d]: the first
    segment that reaches beyond [d] holds the point; a [d] that no segment
    reaches beyond is clamped to the last coordinate. *)
Fixpoint locate_forward (line : LineString) (total d : Q) : Point :=
  match line with
  | [] => (0, 0)
  | [a] => a
  | a :: (b :: _) as tl =>
      let seg_len := distance a b in
      if Qlt_bool d (total + seg_len)
      then point_along a b ((d - total) / seg_len)
      else locate_forward tl (total + seg_len) d
  end.

(** [line.interpolate(d)]: the point at arc length [d] from the start, a
    negative [d] being measured back from the end, and a [d] outside the line
    clamped to it. *)
Definition interpolate (line : LineString) (d : Q) : Point :=
  let forward := if Qlt_bool d 0 then line_length line + d else d in
  if Qle_bool forward 0 then hd (0, 0) line
  else locate_forward line 0 forward.

(** [np.arange(start, stop, step)]: [ceil((stop - start)/step)] values
    [start + i*step].  The quotient is the exact one: numpy takes the
    ceiling of the rounded quotient, which can be one less, so the number of
    values is that of numpy up to one. *)
Definition np_arange (start stop step : Q) : list Q :=
  map (fun i => start + inject_Z (Z.of_nat i) * step)
      (seq 0 (Z.to_nat (Qceiling ((stop - start) / step)))).

(** [densify_linestring line step_m]. *)
Definition densify_linestring (line : LineString) (step_m : Q) : list Point :=
  let length := line_length line in
  if Qle_bool length 0 then
    match line with
    | [] => []
    | [c] => [c; c]
    | c0 :: _ => [c0; last line c0]
    end
  else
    let dists := np_arange 0 (py_max 0 length) (py_max step_m (1 # 1000000)) in
    let dists :=
      match dists with
      | [] => dists ++ [length]
      | d0 :: _ => if Qlt_bool (last dists d0) length
                   then dists ++ [length] else dists
      end in
    map (interpolate line) dists.

(** ** geo.py: curvature *)

Definition triangle_area_doubled (ax ay bx by_ cx cy : Q) : Q :=
  Qabs ((bx - ax) * (cy - ay) - (by_ - ay) * (cx - ax)).

(** The radius of segment [i] of [n - 1], for [n >= 3] points. *)
Definition segment_radius (points : list Point) (n : nat) (i : nat)
    : option Q :=
  if (i =? 0)%nat || (i =? n - 2)%nat then None
  else
    let a := nth (i - 1) points (0, 0) in
    let b := nth i points (0, 0) in
    let c := nth (i + 1) points (0, 0) in
    let ab := hypot (px b - px a) (py b - py a) in
    let bc := hypot (px c - px b) (py c - py b) in
    let ac := hypot (px c - px a) (py c - py a) in
    let area2 := triangle_area_doubled (px a) (py a) (px b) (py b)
                   (px c) (py c) in
    if Qle_bool area2 (1 # 1000000) || Qle_bool ab (1 # 1000000)
       || Qle_bool bc (1 # 1000000) || Qle_bool ac (1 # 1000000)
    then None
    else Some ((ab * bc * ac) / (2 * area2)).

(** [compute_segment_radii points]. *)
Definition compute_segment_radii (points : list Point) : list (option Q) :=
  let n := length points in
  if (n <? 3)%nat then
    repeat None (Z.to_nat (Z.max 0 (Z.of_nat n - 1)))
  else
    map (segment_radius points n) (seq 0 (n - 1)).

(** ** geo.py: the slope profile *)

(** [np.isnan] on an array entry: a missing elevation is not-a-number. *)
Definition isnan (e : option Q) : bool :=
  match e with
  | None => true
  | Some _ => false
  end.

(** [np.flatnonzero(valid)]. *)
Definition flatnonzero (valid : list bool) : list nat :=
  filter (fun i => nth i valid false) (seq 0 (length valid)).

(** The value of [np.interp] at [x], over the sample points [knots] (the
    pairs of [xp] and [fp], [xp] increasing): [fp] at a sample point and
    outside the samples' range, the chord between two samples. *)
Fixpoint interp1 (knots : list (Q * Q)) (x : Q) : Q :=
  match knots with
  | [] => 0
  | (x0, y0) :: tl =>
      match tl with
      | [] => y0
      | (x1, y1) :: _ =>
          if Qlt_bool x x1 then
            if Qle_bool x x0 then y0
            else (y1 - y0) / (x1 - x0) * (x - x0) + y0
          else interp1 tl x
      end
  end.

(** [np.interp(x, xp, fp)]; it raises on an empty array of samples. *)
Definition np_interp (x xp fp : list Q) : result (list Q) :=
  match fp with
  | [] => Raise ValueError
  | _ :: _ => Ok (map (interp1 (combine xp fp)) x)
  end.

(** The elevations [z] after the repair of the missing ones, for
    [n = len(z) >= 2]. *)
Definition repair_elevations (n : nat) (z : list (option Q))
    : result (list Q) :=
  if forallb isnan z then Ok (repeat 0 n)
  else
    let idx := seq 0 n in
    let valid := map (fun e => negb (isnan e)) z in
    let z :=
      if negb (nth 0 valid false) then
        match flatnonzero valid with
        | i :: _ => list_set z 0 (nth i z None)
        | [] => list_set z 0 (Some 0)
        end
      else z in
    let z :=
      if negb (nth (n - 1) valid false) then
        match flatnonzero valid with
        | i :: _ as last_ => list_set z (n - 1) (nth (last last_ i) z None)
        | [] => list_set z (n - 1) (Some 0)
        end
      else z in
    let valid := map (fun e => negb (isnan e)) z in
    let sel := filter (fun i => nth i valid false) idx in
    np_interp (map (fun i => inject_Z (Z.of_nat i)) idx)
              (map (fun i => inject_Z (Z.of_nat i)) sel)
              (map (fun i => match nth i z None with
                             | Some e => e
                             | None => 0
                             end) sel).

(** The profile entry of step [i]. *)
Definition profile_entry (points : list Point) (z : list Q) (i : nat)
    : result entry :=
  let dx := px (nth (i + 1) points (0, 0)) - px (nth i points (0, 0)) in
  let dy := py (nth (i + 1) points (0, 0)) - py (nth i points (0, 0)) in
  let ds := hypot dx dy in
  if Qle_bool ds (1 # 1000000000) then Ok (0, 0, 1)
  else
    let dz := nth (i + 1) z 0 - nth i z 0 in
    let grade := dz / ds in
    let denom := sqrt (1 + grade * grade) in
    if Qeq_bool denom 0 then Raise ZeroDivisionError
    else Ok (ds, grade / denom, 1 / denom).

(** [build_profile_from_points points elevations]. *)
Definition build_profile_from_points (points : list Point)
    (elevations : list (option Q)) : result (list entry) :=
  if negb (length points =? length elevations)%nat then Raise ValueError
  else
    let n := length points in
    if (n <? 2)%nat then Ok []
    else
      do z <- repair_elevations n elevations;
      collect (profile_entry points z) (seq 0 (n - 1)).

(** ** geo.py: truncation *)

(** [shapely.ops.substring(line, 0.0, end, normalized=False)]; [None] when
    the call raises. *)
Variable shapely_substring : LineString -> Q -> Q -> option LineString.

(** The points the manual fallback appends after the first one. *)
Fixpoint cut_fallback (pts : list Point) (acc end_ : Q) : list Point :=
  match pts with
  | a :: (b :: _) as tl =>
      let seg_len := distance a b in
      if Qlt_bool (acc + seg_len) (end_ - (1 # 1000000000))
      then b :: cut_fallback tl (acc + seg_len) end_
      else
        let remain := end_ - acc in
        if Qle_bool seg_len (1 # 1000000000000) then [a]
        else
          let t := remain / seg_len in
          [(px a + t * (px b - px a), py a + t * (py b - py a))]
  | _ => []
  end.

(** [cut_linestring_at_length line length]. *)
Definition cut_linestring_at_length (line : LineString) (length : Q)
    : result LineString :=
  let length := py_max 0 length in
  let total := line_length line in
  let end_ := py_min length total in
  if Qle_bool end_ 0 then
    match line with
    | [] => Raise IndexError
    | start :: _ => Ok [start; start]
    end
  else if Qle_bool total end_ then Ok line
  else
    match shapely_substring line 0 end_ with
    | Some sub => Ok sub
    | None =>
        match line with
        | [] => Raise IndexError
        | p0 :: _ => Ok (p0 :: cut_fallback line 0 end_)
        end
    end.

(** ** geo.py: sampling and the wrapper *)

(** The read of the elevation raster at the points, which may raise. *)
Variable dem_sample : list Point -> result (list (option Q)).

(** [sample_dem_points dem_path points src_crs]. *)
Definition sample_dem_points (points : list Point)
    : result (list (option Q)) :=
  match points with
  | [] => Ok []
  | _ :: _ => dem_sample points
  end.

(** [build_profile_and_radii line graph_crs dem_path step_m]. *)
Definition build_profile_and_radii (line : LineString) (step_m : Q)
    : result (list entry * list (option Q)) :=
  let pts := densify_linestring line step_m in
  do elev <- sample_dem_points pts;
  do profile <- build_profile_from_points pts elev;
  let radii := compute_segment_radii pts in
  Ok (profile, radii).

(** ** run_area.py *)

(** An edge [(u, v, k, data)] of the graph, with [data.get("geometry")]. *)
Record Edge : Type := mkEdge {
  edge_u : Z;
  edge_v : Z;
  edge_key : Z;
  edge_geometry : option LineString
}.

(** A result record. *)
Record EdgeResult : Type := mkEdgeResult {
  res_u : Z;
  res_v : Z;
  res_key : Z;
  length_m : Q;
  coast_distance_m : Q;
  coast_time_s : Q;
  v_out_mps : Q;
  v_max_mps : Q;
  res_geometry : LineString
}.

(** The body of the loop of [process_edges] for one edge: the record to
    append, or [None] when the edge is skipped by [continue]. *)
Definition process_edge (step_m v0 : Q) (p : PhysicalParams) (ed : Edge)
    : result (option EdgeResult) :=
  match edge_geometry ed with
  | None => Ok None
  | Some geom =>
      let length_m := line_length geom in
      if negb (Qlt_bool 1 length_m) then Ok None
      else
        match build_profile_and_radii geom step_m with
        | Raise _ => Ok None
        | Ok (profile, radii) =>
            if (length profile =? 0)%nat then Ok None
            else
              do (dist, t, vout, vmax) <-
                simulate_segment profile v0 p (Some radii);
              let traveled := py_min dist length_m in
              let geom_trunc :=
                match cut_linestring_at_length geom traveled with
                | Ok sub => sub
                | Raise _ => geom
                end in
              Ok (Some (mkEdgeResult (edge_u ed) (edge_v ed) (edge_key ed)
                          length_m traveled t vout vmax geom_trunc))
        end
  end.

(** [process_edges G dem_path step_m v0 p], over the edges of [G]. *)
Fixpoint process_edges (edges : list Edge) (step_m v0 : Q)
    (p : PhysicalParams) : result (list EdgeResult) :=
  match edges with
  | [] => Ok []
  | ed :: tl =>
      do r <- process_edge step_m v0 p ed;
      do results <- process_edges tl step_m v0 p;
      Ok (match r with
          | Some rec => rec :: results
          | None => results
          end)
  end.

(** ** Collaborators for the examples *)

(** A [substring] that always raises, which sends
    [cut_linestring_at_length] to its fallback. *)
Definition no_substring : LineString -> Q -> Q -> option LineString :=
  fun _ _ _ => None.

(** A raster that is flat at elevation 0. *)
Definition flat_dem : list Point -> result (list (option Q)) :=
  fun points => Ok (map (fun _ => Some 0) points).

(** ** More of what the simulation keeps *)

(** The loop variables stay physical: the velocity between 0 and the peak,
    the distance within what the peak velocity covers in the time, and the
    peak at most the larger of the start velocity and the global cap. *)
Definition physical_bounds (v0 : Q) (p : PhysicalParams) (st : sim_state)
    : Prop :=
  0 <= sim_v st /\ sim_v st <= sim_vmax_seen st /\ 0 <= sim_t st /\
  sim_s_acc st <= sim_vmax_seen st * sim_t st /\
  sim_vmax_seen st <= Qmax v0 (vmax_cap p).

(** ** run_area.py: the geometry of every edge *)

(** [G.nodes[n]], with [.get("x")] and [.get("y")]. *)
Record NodeData : Type := mkNode {
  node_x : option Q;
  node_y : option Q
}.

(** The body of the loop of [ensure_edge_geometries] for one edge, on the
    data of the edge. *)
Definition ensure_edge_geometry (nodes : Z -> NodeData) (ed : Edge) : Edge :=
  match edge_geometry ed with
  | Some _ => ed
  | None =>
      match node_x (nodes (edge_u ed)), node_y (nodes (edge_u ed)),
            node_x (nodes (edge_v ed)), node_y (nodes (edge_v ed)) with
      | Some xu, Some yu, Some xv, Some yv =>
          mkEdge (edge_u ed) (edge_v ed) (edge_key ed)
            (Some [(xu, yu); (xv, yv)])
      | _, _, _, _ => ed
      end
  end.

(** [ensure_edge_geometries G]: the edges of [G] after the call. *)
Definition ensure_edge_geometries (nodes : Z -> NodeData)
    (edges : list Edge) : list Edge :=
  map (ensure_edge_geometry nodes) edges.

(** A raster whose read always raises. *)
Definition failing_dem : list Point -> result (list (option Q)) :=
  fun _ => Raise RasterError.

(** ** demo_synthetic.py *)

(** [int(x)] on a float: the integer part, towards zero. *)
Definition py_int (x : Q) : Z := Z.quot (Qnum x) (Z.pos (Qden x)).

(** [add(seg_len, slope)] of [profile()], on the list [prof] it appends
    to; [x**0.5] is the square root. *)
Definition demo_add (prof : list entry) (seg_len slope : Q) : list entry :=
  let sin_t := slope / sqrt (1 + slope * slope) in
  let cos_t := 1 / sqrt (1 + slope * slope) in
  prof ++ repeat (10, sin_t, cos_t) (Z.to_nat (py_int (seg_len / 10))).

(** [profile()]. *)
Definition demo_profile : list entry :=
  demo_add (demo_add (demo_add [] 5000 (- (0.01))) 5000 (- (0.005)))
    2000 0.

(** Fractions in lowest terms, for reading the results of examples. *)
Definition reduced_point (a : Point) : Point := (Qred (px a), Qred (py a)).

Definition reduced_entry (e : entry) : entry :=
  let '(ds, s_sin, s_cos) := e in (Qred ds, Qred s_sin, Qred s_cos).

(** ** What the proofs use of the square root *)

Hypothesis sqrt_nonneg : forall x, 0 <= x -> 0 <= sqrt x.
Hypothesis sqrt_pos : forall x, 0 < x -> 0 < sqrt x.

(** ** Comparisons as propositions *)

Lemma Qlt_bool_true (x y : Q) : Qlt_bool x y = true <-> x < y.
Proof.
  unfold Qlt_bool. rewrite negb_true_iff.
  split; intro H.
  - apply Qnot_le_lt. intro L. apply Qle_bool_iff in L. congruence.
  - destruct (Qle_bool y x) eqn:E; [|reflexivity].
    apply Qle_bool_iff in E. lra.
Qed.

Lemma Qlt_bool_false (x y : Q) : Qlt_bool x y = false <-> y <= x.
Proof.
  unfold Qlt_bool. rewrite negb_false_iff. apply Qle_bool_iff.
Qed.

Lemma Qle_bool_false (x y : Q) : Qle_bool x y = false <-> y < x.
Proof.
  split; intro H.
  - apply Qnot_le_lt. intro L. apply Qle_bool_iff in L. congruence.
  - destruct (Qle_bool x y) eqn:E; [|reflexivity].
    apply Qle_bool_iff in E. lra.
Qed.

(** Case analysis on every float comparison in the goal, leaving the
    outcome as an order fact in the context. *)
Ltac cmp_cases :=
  repeat match goal with
  | |- context [Qlt_bool ?x ?y] =>
      let E := fresh "C" in
      destruct (Qlt_bool x y) eqn:E;
      [apply Qlt_bool_true in E | apply Qlt_bool_false in E]
  | |- context [Qle_bool ?x ?y] =>
      let E := fresh "C" in
      destruct (Qle_bool x y) eqn:E;
      [apply Qle_bool_iff in E | apply Qle_bool_false in E]
  end.

Lemma py_max_lub (a b : Q) : a <= py_max a b /\ b <= py_max a b.
Proof. unfold py_max. cmp_cases; lra. Qed.

Lemma py_max_cases (a b : Q) :
  (a < b /\ py_max a b = b) \/ (b <= a /\ py_max a b = a).
Proof. unfold py_max. cmp_cases; [left | right]; split; auto. Qed.

Lemma py_min_glb (a b : Q) : py_min a b <= a /\ py_min a b <= b.
Proof. unfold py_min. cmp_cases; lra. Qed.

Lemma py_min_cases (a b : Q) :
  (b < a /\ py_min a b = b) \/ (a <= b /\ py_min a b = a).
Proof. unfold py_min. cmp_cases; [left | right]; split; auto. Qed.

Lemma py_min_Qmin (a b : Q) : py_min a b == Qmin a b.
Proof.
  destruct (py_min_cases a b) as [[H E] | [H E]]; rewrite E.
  - symmetry. apply Q.min_r. lra.
  - symmetry. apply Q.min_l. lra.
Qed.


(** ** The integration step *)

(** The acceleration and the velocity that [step_velocity] returns for a
    positive mass. *)
Lemma step_velocity_eq (v ss sc : Q) (p : PhysicalParams) (h : Q)
    (c : option Q) :
  0 < mass p ->
  step_velocity v ss sc p h c =
    let a := - g p * ss - crr p * g p * sc
             - (rho p * cda p / (2 * mass p)) * v * v in
    let v_new := py_max 0 (v + a * h) in
    let cap := match c with
               | None => vmax_cap p
               | Some x => py_min (vmax_cap p) x
               end in
    Ok (if Qlt_bool cap v_new then cap else v_new, a).
Proof.
  intro Hm. unfold step_velocity.
  destruct (Qeq_bool (2 * mass p) 0) eqn:E; [|reflexivity].
  apply Qeq_bool_iff in E. lra.
Qed.

(** With a cap that is not negative the clamp keeps the velocity at or
    above zero. *)
Lemma step_velocity_lower_bound (v ss sc : Q) (p : PhysicalParams) (h : Q)
    (c : option Q) :
  valid_params p -> 0 <= v -> (forall x, c = Some x -> 0 <= x) ->
  exists v' a, step_velocity v ss sc p h c = Ok (v', a) /\ 0 <= v'.
Proof.
  intros (Hm & _ & _ & _ & _ & _ & Hcap) Hv Hc.
  rewrite step_velocity_eq by exact Hm. cbv zeta.
  eexists. eexists. split; [reflexivity|].
  set (a := _ - _ - _ * v * v).
  pose proof (py_max_lub 0 (v + a * h)) as [M0 _].
  destruct c as [x|].
  - specialize (Hc x eq_refl).
    destruct (py_min_cases (vmax_cap p) x) as [[_ E] | [_ E]]; rewrite E;
      cmp_cases; lra.
  - cmp_cases; lra.
Qed.

(** C1, as amended: for valid parameters, a velocity [v >= 0] and a local cap
    that is absent or not negative, [step_velocity] returns, and the velocity
    it returns is not negative. *)
Theorem step_velocity_nonneg (v ss sc : Q) (p : PhysicalParams) (h : Q)
    (c : option Q) :
  valid_params p -> 0 <= v -> (forall x, c = Some x -> 0 <= x) ->
  exists v' a, step_velocity v ss sc p h c = Ok (v', a) /\ 0 <= v'.
Proof. exact (step_velocity_lower_bound v ss sc p h c). Qed.

(** C2, as amended: for valid parameters with [crr = 0] and [cda = 0], on a
    flat entry ([sin = 0]) and for a velocity [0 <= v] that does not exceed
    the cap in force, [step_velocity] returns the acceleration 0 and the
    velocity [v]. *)
Theorem step_velocity_flat_frictionless (v sc : Q) (p : PhysicalParams)
    (h : Q) (c : option Q) :
  valid_params p -> crr p == 0 -> cda p == 0 -> 0 <= v ->
  v <= vmax_cap p -> (forall x, c = Some x -> v <= x) ->
  exists v' a, step_velocity v 0 sc p h c = Ok (v', a) /\ a == 0 /\ v' == v.
Proof.
  intros (Hm & _) Hcrr Hcda Hv Hcap Hc.
  rewrite step_velocity_eq by exact Hm. cbv zeta.
  eexists. eexists. split; [reflexivity|].
  set (a := _ - _ - _ * v * v).
  assert (Ha : a == 0).
  { unfold a, Qdiv. rewrite Hcrr, Hcda. ring. }
  split; [exact Ha|].
  assert (Hah : a * h == 0) by (rewrite Ha; ring).
  clearbody a.
  destruct (py_max_cases 0 (v + a * h)) as [[M E0] | [M E0]]; rewrite E0;
    (destruct c as [x|];
     [ specialize (Hc x eq_refl);
       destruct (py_min_cases (vmax_cap p) x) as [[_ E] | [_ E]]; rewrite E
     | ]);
    cmp_cases; lra.
Qed.

(** C6: for valid parameters [step_velocity] returns, and the velocity it
    returns is at most [min(vmax_cap, local cap)] when a local cap is given
    and at most [vmax_cap] when none is. *)
Theorem step_velocity_capped (v ss sc : Q) (p : PhysicalParams) (h : Q)
    (c : option Q) :
  valid_params p ->
  exists v' a, step_velocity v ss sc p h c = Ok (v', a) /\
    v' <= match c with
          | None => vmax_cap p
          | Some x => Qmin (vmax_cap p) x
          end.
Proof.
  intros (Hm & _).
  rewrite step_velocity_eq by exact Hm. cbv zeta.
  eexists. eexists. split; [reflexivity|].
  destruct c as [x|].
  - rewrite <- py_min_Qmin. cmp_cases; lra.
  - cmp_cases; lra.
Qed.

(** ** The sub-steps of an entry *)

Lemma guard_true (e : entry) (st : sim_state) (sl : Q) :
  guard e st sl = true <-> sl < fst (fst e) /\ 0 < sim_v st.
Proof.
  unfold guard. rewrite andb_true_iff, !Qlt_bool_true. tauto.
Qed.

(** The three ways through the body of the loop: the stall, the pass that
    overshoots [ds] and is corrected, and the plain pass. *)
Lemma loop_body_cases (ds ss sc : Q) (p : PhysicalParams) (c : option Q)
    (st : sim_state) (sl : Q) :
  0 < mass p ->
  exists v' a,
    step_velocity (sim_v st) ss sc p (dt p) c = Ok (v', a) /\
    ((v' * dt p <= 1 # 1000000 /\
      loop_body (ds, ss, sc) p c st sl =
        Ok (mkSim 0 (sim_t st) (sim_s_acc st) (sim_vmax_seen st), None)) \/
     ((1 # 1000000) < v' * dt p /\ ds < sl + v' * dt p /\
      loop_body (ds, ss, sc) p c st sl =
        Ok (mkSim v'
              (sim_t st + dt p
               - (sl + v' * dt p - ds) / py_max v' (1 # 1000000))
              (sim_s_acc st + v' * dt p - (sl + v' * dt p - ds))
              (py_max (sim_vmax_seen st) v'),
            Some ds)) \/
     ((1 # 1000000) < v' * dt p /\ sl + v' * dt p <= ds /\
      loop_body (ds, ss, sc) p c st sl =
        Ok (mkSim v' (sim_t st + dt p) (sim_s_acc st + v' * dt p)
              (py_max (sim_vmax_seen st) v'),
            Some (sl + v' * dt p)))).
Proof.
  intro Hm. unfold loop_body.
  rewrite step_velocity_eq by exact Hm. cbv zeta.
  eexists. eexists. split; [reflexivity|].
  unfold bind.
  match goal with
  | |- context [Qle_bool (?w * dt p) (1 # 1000000)] => set (v' := w)
  end.
  destruct (Qle_bool (v' * dt p) (1 # 1000000)) eqn:E1.
  - left. apply Qle_bool_iff in E1. split; [exact E1 | reflexivity].
  - apply Qle_bool_false in E1. right.
    destruct (Qlt_bool ds (sl + v' * dt p)) eqn:E2.
    + left. apply Qlt_bool_true in E2. repeat split; assumption.
    + right. apply Qlt_bool_false in E2. repeat split; assumption.
Qed.

(** A pass that stays in the loop lowers the bound on the passes left. *)
Lemma substep_bound_decreases (ds sl sl' : Q) :
  sl < ds ->
  sl' == ds \/ (sl + (1 # 1000000) < sl' /\ sl' <= ds) ->
  (substep_bound ds sl' < substep_bound ds sl)%nat.
Proof.
  intros Hg Hsl. unfold substep_bound.
  set (x := (ds - sl) / (1 # 1000000)).
  set (x' := (ds - sl') / (1 # 1000000)).
  assert (Hx : x == (ds - sl) * 1000000) by (unfold x; field).
  assert (Hx' : x' == (ds - sl') * 1000000) by (unfold x'; field).
  assert (H0 : 0 <= x') by (destruct Hsl as [E | [_ L]]; lra).
  assert (H1 : x' + 1 <= x \/ (x' == 0 /\ 0 < x))
    by (destruct Hsl as [E | [L _]]; [right | left]; lra).
  pose proof (Qle_ceiling x) as Cx.
  pose proof (Qle_ceiling x') as Cx'.
  pose proof (Qceiling_lt x) as Lx.
  pose proof (Qceiling_lt x') as Lx'.
  assert (Ez : forall z, inject_Z (z - 1) == inject_Z z - 1).
  { intro z. unfold Z.sub. rewrite inject_Z_plus. reflexivity. }
  rewrite Ez in Lx, Lx'.
  assert (Hz0 : (0 <= Qceiling x')%Z).
  { rewrite Zle_Qle. change (inject_Z 0) with 0. lra. }
  assert (Hz1 : (Qceiling x' < Qceiling x)%Z).
  { destruct H1 as [H1 | [H1 H2]].
    - rewrite Zlt_Qlt. lra.
    - assert (A : (Qceiling x' < 1)%Z)
        by (rewrite Zlt_Qlt; change (inject_Z 1) with 1; lra).
      assert (B : (0 < Qceiling x)%Z)
        by (rewrite Zlt_Qlt; change (inject_Z 0) with 0; lra).
      lia. }
  lia.
Qed.

(** A pass that returns [Some s_local'] has moved [s_local] as the bound
    on the passes assumes. *)
Lemma loop_body_progress (e : entry) (p : PhysicalParams) (c : option Q)
    (st st' : sim_state) (sl sl' : Q) :
  sl < fst (fst e) ->
  loop_body e p c st sl = Ok (st', Some sl') ->
  sl' == fst (fst e) \/
  (sl + (1 # 1000000) < sl' /\ sl' <= fst (fst e)).
Proof.
  destruct e as [[ds ss] sc]. simpl fst. intros Hg H.
  unfold loop_body in H.
  destruct (step_velocity (sim_v st) ss sc p (dt p) c) as [[v' a]|x];
    [|discriminate].
  simpl in H.
  destruct (Qle_bool (v' * dt p) (1 # 1000000)) eqn:E1; [discriminate|].
  apply Qle_bool_false in E1.
  destruct (Qlt_bool ds (sl + v' * dt p)) eqn:E2.
  - injection H as _ H. subst sl'. left. reflexivity.
  - apply Qlt_bool_false in E2. injection H as _ H. subst sl'.
    right. split; lra.
Qed.

(** The loop has finished within [substep_bound] unrollings: any two
    amounts of fuel from the bound on give the same result. *)
Lemma while_loop_stable (e : entry) (p : PhysicalParams) (c : option Q) :
  forall (f1 f2 : nat) (st : sim_state) (sl : Q),
    (substep_bound (fst (fst e)) sl <= f1)%nat ->
    (substep_bound (fst (fst e)) sl <= f2)%nat ->
    while_loop f1 e p c st sl = while_loop f2 e p c st sl.
Proof.
  induction f1 as [|f1 IH]; intros f2 st sl H1 H2.
  - unfold substep_bound in H1. lia.
  - destruct f2 as [|f2]; [unfold substep_bound in H2; lia|].
    simpl. destruct (guard e st sl) eqn:G; [|reflexivity].
    apply guard_true in G. destruct G as [G _].
    destruct (loop_body e p c st sl) as [[st' [sl'|]]|x] eqn:B;
      simpl; try reflexivity.
    pose proof (substep_bound_decreases (fst (fst e)) sl sl' G
                  (loop_body_progress e p c st st' sl sl' G B)) as D.
    apply IH; lia.
Qed.

(** The loop, written as the equation it solves. *)
Lemma while_loop_unfold (e : entry) (p : PhysicalParams) (c : option Q)
    (st : sim_state) (sl : Q) :
  while_loop (substep_bound (fst (fst e)) sl) e p c st sl =
    if guard e st sl then
      do (st', next) <- loop_body e p c st sl;
      match next with
      | None => Ok st'
      | Some sl' => while_loop (substep_bound (fst (fst e)) sl') e p c st' sl'
      end
    else Ok st.
Proof.
  assert (Hs : exists k, substep_bound (fst (fst e)) sl = S k)
    by (unfold substep_bound; eauto).
  destruct Hs as [k Hk]. rewrite Hk.
  change (while_loop (S k) e p c st sl) with
    (if guard e st sl then
       do (st', next) <- loop_body e p c st sl;
       match next with
       | None => Ok st'
       | Some sl' => while_loop k e p c st' sl'
       end
     else Ok st).
  destruct (guard e st sl) eqn:G; [|reflexivity].
  apply guard_true in G. destruct G as [G _].
  destruct (loop_body e p c st sl) as [[st' [sl'|]]|x] eqn:B;
    try reflexivity.
  pose proof (substep_bound_decreases (fst (fst e)) sl sl' G
                (loop_body_progress e p c st st' sl sl' G B)) as D.
  unfold bind. apply while_loop_stable; lia.
Qed.

(** Loop invariants: a property [I] of the loop variables that every pass
    keeps, and that gives [R] when the loop is left. *)
Lemma while_loop_invariant (I : sim_state -> Q -> Prop)
    (R : sim_state -> Prop) (e : entry) (p : PhysicalParams)
    (c : option Q) :
  0 < mass p ->
  (forall st sl st' next,
     I st sl -> sl < fst (fst e) -> 0 < sim_v st ->
     loop_body e p c st sl = Ok (st', next) ->
     match next with
     | Some sl' => I st' sl'
     | None => R st'
     end) ->
  (forall st sl, I st sl -> R st) ->
  forall (fuel : nat) (st : sim_state) (sl : Q),
    I st sl ->
    exists st', while_loop fuel e p c st sl = Ok st' /\ R st'.
Proof.
  intros Hm Hbody Hexit.
  induction fuel as [|fuel IH]; intros st sl HI; simpl.
  - eauto.
  - destruct (guard e st sl) eqn:G; [|eauto].
    apply guard_true in G. destruct G as [G1 G2].
    destruct e as [[ds ss] sc].
    destruct (loop_body_cases ds ss sc p c st sl Hm)
      as (v' & a & _ & [[_ B] | [[_ [_ B]] | [_ [_ B]]]]);
      pose proof (Hbody _ _ _ _ HI G1 G2 B) as Hn; rewrite B; simpl;
      eauto.
Qed.

(** ** The simulation of an edge *)

(** The local cap, when there is one, is a square root. *)
Lemma curve_cap_nonneg (p : PhysicalParams) (radii : option (list (option Q)))
    (idx : nat) (x : Q) :
  curve_cap p radii idx = Some x -> 0 <= x.
Proof.
  unfold curve_cap. destruct radii as [rs|]; [|discriminate].
  destruct (if (idx <? length rs)%nat then nth idx rs None else None)
    as [r|]; [|discriminate].
  destruct (Qlt_bool 0 r); [|discriminate].
  intro H. injection H as <-.
  apply sqrt_nonneg. apply py_max_lub.
Qed.

(** The backward correction of the time takes less than the step. *)
Lemma overshoot_time (v' h sl ds : Q) :
  0 < h -> (1 # 1000000) < v' * h -> sl < ds -> ds < sl + v' * h ->
  (sl + v' * h - ds) / py_max v' (1 # 1000000) <= h.
Proof.
  intros Hh Hstep Hg Hover.
  pose proof (py_max_lub v' (1 # 1000000)) as [M1 M2].
  set (m := py_max v' (1 # 1000000)) in *.
  apply Qle_shift_div_r; [lra|]. nra.
Qed.

Lemma while_loop_bounds (v0 : Q) (e : entry) (p : PhysicalParams)
    (c : option Q) (fuel : nat) (st : sim_state) (sl : Q) :
  valid_params p -> (forall x, c = Some x -> 0 <= x) ->
  outcome_bounds v0 st ->
  exists st', while_loop fuel e p c st sl = Ok st' /\ outcome_bounds v0 st'.
Proof.
  intros Hp Hc HJ.
  assert (Hm : 0 < mass p) by apply Hp.
  assert (Hdt : 0 < dt p) by apply Hp.
  apply (while_loop_invariant (fun st _ => outcome_bounds v0 st)
           (outcome_bounds v0) e p c Hm); [|auto|exact HJ].
  clear st sl HJ. intros st sl st' next (Jv & Jt & Js & Jm) G1 G2 B.
  destruct e as [[ds ss] sc]. simpl fst in G1.
  destruct (step_velocity_lower_bound (sim_v st) ss sc p (dt p) c Hp Jv Hc)
    as (v1 & a1 & S1 & Hv1).
  destruct (loop_body_cases ds ss sc p c st sl Hm)
    as (v' & a & S2 & Hcases).
  rewrite S1 in S2. injection S2 as <- <-.
  pose proof (py_max_lub (sim_vmax_seen st) v1) as [M1 M2].
  destruct Hcases as [[_ B'] | [[Hs [Ho B']] | [Hs [Ho B']]]];
    rewrite B' in B; injection B as <- <-; unfold outcome_bounds; simpl.
  - repeat split; lra.
  - pose proof (overshoot_time v1 (dt p) sl ds Hdt Hs G1 Ho) as T.
    repeat split; lra.
  - repeat split; lra.
Qed.

(** The [for] loop, one entry at a time. *)
Lemma for_loop_cons (e : entry) (rest : list entry) (p : PhysicalParams)
    (radii : option (list (option Q))) (idx : nat) (st : sim_state) :
  for_loop (e :: rest) p radii idx st =
    do st' <- while_loop (substep_bound (fst (fst e)) 0) e p
                (curve_cap p radii idx) st 0;
    if Qle_bool (sim_v st') 0 then Ok st'
    else for_loop rest p radii (S idx) st'.
Proof. reflexivity. Qed.

Lemma for_loop_bounds (v0 : Q) (p : PhysicalParams)
    (radii : option (list (option Q))) (profile : list entry) :
  valid_params p ->
  forall (idx : nat) (st : sim_state),
    outcome_bounds v0 st ->
    exists st', for_loop profile p radii idx st = Ok st' /\
                outcome_bounds v0 st'.
Proof.
  intro Hp. induction profile as [|e rest IH]; intros idx st HJ.
  - simpl. eauto.
  - rewrite for_loop_cons.
    destruct (while_loop_bounds v0 e p (curve_cap p radii idx)
                (substep_bound (fst (fst e)) 0) st 0 Hp
                (curve_cap_nonneg p radii idx) HJ) as (st' & W & HJ').
    rewrite W. unfold bind.
    destruct (Qle_bool (sim_v st') 0); eauto.
Qed.


(** ** Rounding to binary64 *)

Lemma pow2_pos (k : Z) : 0 < pow2 k.
Proof. apply Qpower_0_lt. reflexivity. Qed.

Lemma pow2_add (a b : Z) : pow2 (a + b) == pow2 a * pow2 b.
Proof. apply Qpower_plus. discriminate. Qed.

Lemma pow2_succ (a : Z) : pow2 (a + 1) == 2 * pow2 a.
Proof. rewrite pow2_add. change (pow2 1) with 2. ring. Qed.

Lemma pow2_cancel (k : Z) : pow2 k * pow2 (- k) == 1.
Proof.
  rewrite <- pow2_add. replace (k + - k)%Z with 0%Z by lia. reflexivity.
Qed.

Lemma pow2_le (a b : Z) : (a <= b)%Z -> pow2 a <= pow2 b.
Proof. intro H. apply Qpower_le_compat_l; [exact H | discriminate]. Qed.

Lemma pow2_lt_inv (a b : Z) : pow2 a < pow2 b -> (a < b)%Z.
Proof. intro H. apply (Qpower_lt_compat_l_inv 2); [exact H | reflexivity]. Qed.

Lemma pow2_inject (a : Z) : (0 <= a)%Z -> inject_Z (2 ^ a) == pow2 a.
Proof. intro H. apply Zpower_Qpower. exact H. Qed.

Lemma binade_spec (x : Q) :
  0 < x -> pow2 (binade x) <= x /\ x < pow2 (binade x + 1).
Proof.
  intro Hx. destruct x as [n d].
  assert (Hn : (0 < n)%Z).
  { unfold Qlt in Hx. simpl in Hx. lia. }
  unfold binade. simpl Qnum. simpl Qden.
  set (a := Z.log2 n). set (b := Z.log2 (Z.pos d)).
  destruct (Z.log2_spec n Hn) as [A1 A2]. fold a in A1, A2.
  destruct (Z.log2_spec (Z.pos d) (Pos2Z.is_pos d)) as [B1 B2].
  fold b in B1, B2.
  assert (Ha : (0 <= a)%Z) by apply Z.log2_nonneg.
  assert (Hb : (0 <= b)%Z) by apply Z.log2_nonneg.
  assert (QA1 : pow2 a <= inject_Z n).
  { rewrite <- pow2_inject by exact Ha. rewrite <- Zle_Qle. exact A1. }
  assert (QA2 : inject_Z n < 2 * pow2 a).
  { rewrite <- pow2_succ, <- pow2_inject by lia. rewrite <- Zlt_Qlt.
    replace (a + 1)%Z with (Z.succ a) by lia. exact A2. }
  assert (QB1 : pow2 b <= inject_Z (Z.pos d)).
  { rewrite <- pow2_inject by exact Hb. rewrite <- Zle_Qle. exact B1. }
  assert (QB2 : inject_Z (Z.pos d) < 2 * pow2 b).
  { rewrite <- pow2_succ, <- pow2_inject by lia. rewrite <- Zlt_Qlt.
    replace (b + 1)%Z with (Z.succ b) by lia. exact B2. }
  pose proof (pow2_pos a) as PA. pose proof (pow2_pos b) as PB.
  assert (Hd : 0 < inject_Z (Z.pos d)) by lra.
  assert (Ex : n # d == inject_Z n / inject_Z (Z.pos d))
    by apply Qmake_Qdiv.
  assert (Ee : pow2 (a - b) == pow2 a / pow2 b).
  { apply Qpower_minus. discriminate. }
  set (N := inject_Z n) in *. set (D := inject_Z (Z.pos d)) in *.
  set (PA' := pow2 a) in *. set (PB' := pow2 b) in *.
  destruct (Qle_bool (pow2 (a - b)) (n # d)) eqn:E.
  - apply Qle_bool_iff in E. split; [exact E|].
    rewrite pow2_succ, Ee, Ex.
    apply Qlt_shift_div_r; [exact Hd|].
    setoid_replace (2 * (PA' / PB') * D) with (2 * PA' * D / PB')
      by (field; lra).
    apply Qlt_shift_div_l; [exact PB|]. nra.
  - assert (E' : n # d < pow2 (a - b)).
    { apply Qnot_le_lt. intro L. apply Qle_bool_iff in L. congruence. }
    split.
    + assert (Ee' : pow2 (a - b - 1) == PA' / (2 * PB')).
      { unfold Z.sub at 1. rewrite pow2_add, Ee.
        change (pow2 (- (1))) with (1 # 2). field. lra. }
      rewrite Ee', Ex.
      apply Qle_shift_div_l; [exact Hd|].
      setoid_replace (PA' / (2 * PB') * D) with (PA' * D / (2 * PB'))
        by (field; lra).
      apply Qle_shift_div_r; [lra|]. nra.
    + replace (a - b - 1 + 1)%Z with (a - b)%Z by lia. exact E'.
Qed.

Lemma binade_unique (x : Q) (e : Z) :
  pow2 e <= x -> x < pow2 (e + 1) -> binade x = e.
Proof.
  intros H1 H2.
  assert (Hx : 0 < x) by (pose proof (pow2_pos e); lra).
  destruct (binade_spec x Hx) as [S1 S2].
  assert (L1 : (e < binade x + 1)%Z) by (apply pow2_lt_inv; lra).
  assert (L2 : (binade x < e + 1)%Z) by (apply pow2_lt_inv; lra).
  lia.
Qed.

Lemma round_even_near (y : Q) :
  inject_Z (round_even y) <= y + (1 # 2) /\
  y - (1 # 2) <= inject_Z (round_even y).
Proof.
  unfold round_even.
  pose proof (Qfloor_le y) as F1. pose proof (Qlt_floor y) as F2.
  rewrite inject_Z_plus in F2. change (inject_Z 1) with 1 in F2.
  destruct (Qcompare (y - inject_Z (Qfloor y)) (1 # 2)) eqn:C.
  - apply Qeq_alt in C.
    destruct (Z.even (Qfloor y));
      rewrite ?inject_Z_plus; change (inject_Z 1) with 1; split; lra.
  - apply Qlt_alt in C. split; lra.
  - apply Qgt_alt in C. rewrite inject_Z_plus.
    change (inject_Z 1) with 1. split; lra.
Qed.

Lemma round_even_mono (y z : Q) :
  y <= z -> (round_even y <= round_even z)%Z.
Proof.
  intro H. pose proof (Qfloor_resp_le y z H) as F.
  assert (Ly : (round_even y <= Qfloor y + 1)%Z).
  { unfold round_even.
    destruct (Qcompare _ _); [destruct (Z.even _)| |]; lia. }
  assert (Lz : (Qfloor z <= round_even z)%Z).
  { unfold round_even.
    destruct (Qcompare _ _); [destruct (Z.even _)| |]; lia. }
  destruct (Z.eq_dec (Qfloor y) (Qfloor z)) as [E | N]; [|lia].
  unfold round_even. rewrite <- E.
  destruct (Qcompare (y - inject_Z (Qfloor y)) (1 # 2)) eqn:Cy;
    destruct (Qcompare (z - inject_Z (Qfloor y)) (1 # 2)) eqn:Cz;
    repeat match goal with
    | H : Qcompare _ _ = Eq |- _ => apply Qeq_alt in H
    | H : Qcompare _ _ = Lt |- _ => apply Qlt_alt in H
    | H : Qcompare _ _ = Gt |- _ => apply Qgt_alt in H
    end;
    try (exfalso; lra); try destruct (Z.even (Qfloor y)); lia.
Qed.

Lemma round_even_integer (y : Q) (m : Z) :
  y == inject_Z m -> round_even y = m.
Proof.
  intro H. unfold round_even.
  assert (F : Qfloor y = m).
  { rewrite (Qfloor_comp _ _ H). apply Qfloor_Z. }
  rewrite F.
  assert (C : Qcompare (y - inject_Z m) (1 # 2) = Lt).
  { apply -> Qlt_alt. lra. }
  rewrite C. reflexivity.
Qed.

Lemma round_pos_eq (x : Q) :
  round_pos x ==
    inject_Z (round_even (x * pow2 (52 - binade x)))
    * pow2 (- (52 - binade x)).
Proof. unfold round_pos. cbv zeta. apply Qred_correct. Qed.

(** The scaled argument lies in [[2^52, 2^53)], its rounding in
    [[2^52, 2^53]]. *)
Lemma scaled_range (x : Q) :
  0 < x ->
  pow2 52 <= x * pow2 (52 - binade x) /\
  x * pow2 (52 - binade x) < pow2 53.
Proof.
  intro Hx. destruct (binade_spec x Hx) as [S1 S2].
  set (e := binade x) in *.
  pose proof (pow2_pos (52 - e)) as P.
  assert (E1 : pow2 52 == pow2 e * pow2 (52 - e)).
  { rewrite <- pow2_add. replace (e + (52 - e))%Z with 52%Z by lia.
    reflexivity. }
  assert (E2 : pow2 53 == pow2 (e + 1) * pow2 (52 - e)).
  { rewrite <- pow2_add. replace (e + 1 + (52 - e))%Z with 53%Z by lia.
    reflexivity. }
  rewrite E1, E2. split; nra.
Qed.

Lemma significand_range (x : Q) :
  0 < x ->
  (2 ^ 52 <= round_even (x * pow2 (52 - binade x)) <= 2 ^ 53)%Z.
Proof.
  intro Hx. destruct (scaled_range x Hx) as [R1 R2].
  split.
  - apply Z.le_trans with (round_even (inject_Z (2 ^ 52))).
    + rewrite (round_even_integer _ (2 ^ 52)) by reflexivity. apply Z.le_refl.
    + apply round_even_mono. rewrite pow2_inject by lia. exact R1.
  - apply Z.le_trans with (round_even (inject_Z (2 ^ 53))).
    + apply round_even_mono. rewrite pow2_inject by lia. lra.
    + rewrite (round_even_integer _ (2 ^ 53)) by reflexivity. apply Z.le_refl.
Qed.

Lemma round_pos_range (x : Q) :
  0 < x ->
  pow2 (binade x) <= round_pos x /\ round_pos x <= pow2 (binade x + 1).
Proof.
  intro Hx. destruct (significand_range x Hx) as [M1 M2].
  rewrite round_pos_eq.
  set (e := binade x) in *.
  set (m := round_even (x * pow2 (52 - e))) in *.
  pose proof (pow2_pos (- (52 - e))) as P.
  assert (E1 : pow2 e == pow2 52 * pow2 (- (52 - e))).
  { rewrite <- pow2_add. replace (52 + - (52 - e))%Z with e by lia.
    reflexivity. }
  assert (E2 : pow2 (e + 1) == pow2 53 * pow2 (- (52 - e))).
  { rewrite <- pow2_add. replace (53 + - (52 - e))%Z with (e + 1)%Z by lia.
    reflexivity. }
  assert (Q1 : pow2 52 <= inject_Z m).
  { rewrite <- pow2_inject by lia. rewrite <- Zle_Qle. exact M1. }
  assert (Q2 : inject_Z m <= pow2 53).
  { rewrite <- pow2_inject by lia. rewrite <- Zle_Qle. exact M2. }
  rewrite E1, E2. split; nra.
Qed.

Lemma round_pos_pos (x : Q) : 0 < x -> 0 < round_pos x.
Proof.
  intro Hx. destruct (round_pos_range x Hx) as [R _].
  pose proof (pow2_pos (binade x)). lra.
Qed.

Lemma round_pos_mono (x y : Q) :
  0 < x -> x <= y -> round_pos x <= round_pos y.
Proof.
  intros Hx Hxy. assert (Hy : 0 < y) by lra.
  destruct (binade_spec x Hx) as [X1 X2].
  destruct (binade_spec y Hy) as [Y1 Y2].
  assert (L : (binade x < binade y + 1)%Z) by (apply pow2_lt_inv; lra).
  destruct (Z.eq_dec (binade x) (binade y)) as [E | N].
  - rewrite !round_pos_eq, E.
    pose proof (pow2_pos (52 - binade y)) as P1.
    pose proof (pow2_pos (- (52 - binade y))) as P2.
    assert (M : (round_even (x * pow2 (52 - binade y))
                 <= round_even (y * pow2 (52 - binade y)))%Z).
    { apply round_even_mono. nra. }
    rewrite Zle_Qle in M. nra.
  - destruct (round_pos_range x Hx) as [_ RX].
    destruct (round_pos_range y Hy) as [RY _].
    assert (P : pow2 (binade x + 1) <= pow2 (binade y))
      by (apply pow2_le; lia).
    lra.
Qed.

Lemma round_pos_comp (x y : Q) : 0 < x -> x == y -> round_pos x == round_pos y.
Proof.
  intros Hx E. apply Qle_antisym; apply round_pos_mono; lra.
Qed.

Lemma round_pos_idem (x : Q) :
  0 < x -> round_pos (round_pos x) == round_pos x.
Proof.
  intro Hx.
  destruct (significand_range x Hx) as [M1 M2].
  destruct (round_pos_range x Hx) as [R1 R2].
  pose proof (round_pos_eq x) as E.
  set (e := binade x) in *.
  set (m := round_even (x * pow2 (52 - e))) in *.
  set (r := round_pos x) in *.
  rewrite (round_pos_eq r).
  destruct (Z.eq_dec m (2 ^ 53)) as [Top | Below].
  - assert (Er : r == pow2 (e + 1)).
    { rewrite E, Top, pow2_inject by lia. rewrite <- pow2_add.
      replace (53 + - (52 - e))%Z with (e + 1)%Z by lia. reflexivity. }
    assert (B : binade r = (e + 1)%Z).
    { apply binade_unique; [lra|].
      rewrite Er. rewrite (pow2_succ (e + 1)).
      pose proof (pow2_pos (e + 1)). lra. }
    rewrite B.
    assert (S : r * pow2 (52 - (e + 1)) == inject_Z (2 ^ 52)).
    { rewrite Er, <- pow2_add, pow2_inject by lia.
      replace (e + 1 + (52 - (e + 1)))%Z with 52%Z by lia. reflexivity. }
    rewrite (round_even_integer _ _ S), pow2_inject by lia.
    rewrite <- pow2_add, Er.
    replace (52 + - (52 - (e + 1)))%Z with (e + 1)%Z by lia. reflexivity.
  - assert (Q2 : inject_Z m < pow2 53).
    { rewrite <- pow2_inject by lia. rewrite <- Zlt_Qlt. lia. }
    pose proof (pow2_pos (- (52 - e))) as P.
    assert (E2 : pow2 (e + 1) == pow2 53 * pow2 (- (52 - e))).
    { rewrite <- pow2_add.
      replace (53 + - (52 - e))%Z with (e + 1)%Z by lia. reflexivity. }
    assert (B : binade r = e).
    { apply binade_unique; [exact R1|]. rewrite E, E2. nra. }
    rewrite B.
    assert (S : r * pow2 (52 - e) == inject_Z m).
    { rewrite E. pose proof (pow2_cancel (52 - e)) as C.
      setoid_replace (inject_Z m * pow2 (- (52 - e)) * pow2 (52 - e))
        with (inject_Z m * (pow2 (52 - e) * pow2 (- (52 - e)))) by ring.
      rewrite C. ring. }
    rewrite (round_even_integer _ _ S). symmetry. exact E.
Qed.

Lemma round_b64_rounding : rounding round_b64.
Proof.
  assert (Sgn : forall x,
            (x < 0 /\ round_b64 x = - round_pos (- x)) \/
            (x == 0 /\ round_b64 x = 0) \/
            (0 < x /\ round_b64 x = round_pos x)).
  { intro x. unfold round_b64. destruct (Qcompare x 0) eqn:C.
    - apply Qeq_alt in C. auto.
    - apply Qlt_alt in C. auto.
    - apply Qgt_alt in C. auto. }
  split; [|split].
  - intros x y H.
    destruct (Sgn x) as [[Hx Ex] | [[Hx Ex] | [Hx Ex]]];
      destruct (Sgn y) as [[Hy Ey] | [[Hy Ey] | [Hy Ey]]];
      rewrite Ex, Ey; try (exfalso; lra).
    + assert (round_pos (- y) <= round_pos (- x))
        by (apply round_pos_mono; lra).
      lra.
    + assert (0 < round_pos (- x)) by (apply round_pos_pos; lra). lra.
    + assert (0 < round_pos (- x)) by (apply round_pos_pos; lra).
      assert (0 < round_pos y) by (apply round_pos_pos; lra). lra.
    + lra.
    + assert (0 < round_pos y) by (apply round_pos_pos; lra). lra.
    + apply round_pos_mono; lra.
  - intro x.
    destruct (Sgn x) as [[Hx Ex] | [[Hx Ex] | [Hx Ex]]]; rewrite Ex.
    + assert (P : 0 < round_pos (- x)) by (apply round_pos_pos; lra).
      destruct (Sgn (- round_pos (- x))) as [[_ E] | [[H _] | [H _]]];
        try (exfalso; lra).
      rewrite E.
      assert (C : round_pos (- - round_pos (- x))
                  == round_pos (round_pos (- x))).
      { apply round_pos_comp; lra. }
      rewrite C, round_pos_idem by lra. reflexivity.
    + reflexivity.
    + assert (P : 0 < round_pos x) by (apply round_pos_pos; lra).
      destruct (Sgn (round_pos x)) as [[H _] | [[H _] | [_ E]]];
        try (exfalso; lra).
      rewrite E. apply round_pos_idem. exact Hx.
  - reflexivity.
Qed.

(** ** The simulation on rounded numbers *)

Lemma rounding_nonneg (rnd : Q -> Q) (x : Q) :
  rounding rnd -> 0 <= x -> 0 <= rnd x.
Proof.
  intros (M & _ & Z0) H. pose proof (M 0 x H). lra.
Qed.

(** A rounded number bounds the rounding of what is below it. *)
Lemma rounding_below (rnd : Q -> Q) (x y : Q) :
  rounding rnd -> x <= rnd y -> rnd x <= rnd y.
Proof.
  intros (M & I & _) H. pose proof (M _ _ H). pose proof (I y). lra.
Qed.

Lemma curve_cap_fl_nonneg (rnd : Q -> Q) (p : PhysicalParams)
    (radii : option (list (option Q))) (idx : nat) (x : Q) :
  curve_cap_fl rnd p radii idx = Some x -> 0 <= x.
Proof.
  unfold curve_cap_fl. destruct radii as [rs|]; [|discriminate].
  destruct (if (idx <? length rs)%nat then nth idx rs None else None)
    as [r|]; [|discriminate].
  destruct (Qlt_bool 0 r); [|discriminate].
  intro H. injection H as <-.
  apply sqrt_nonneg. apply py_max_lub.
Qed.

(** The clamps of [step_velocity] compare and select, so they hold on
    rounded numbers as they do on exact ones. *)
Lemma step_velocity_fl_nonneg (rnd : Q -> Q) (v ss sc : Q)
    (p : PhysicalParams) (h : Q) (c : option Q) (v' a : Q) :
  0 < vmax_cap p -> (forall x, c = Some x -> 0 <= x) ->
  step_velocity_fl rnd v ss sc p h c = Ok (v', a) -> 0 <= v'.
Proof.
  intros Hcap Hc. unfold step_velocity_fl.
  destruct (Qeq_bool (rnd (2 * mass p)) 0); [discriminate|]. cbv zeta.
  intro H. injection H as <- _.
  match goal with
  | |- context [py_max 0 ?x] =>
      pose proof (py_max_lub 0 x) as [M _]; set (w := py_max 0 x) in *
  end.
  destruct c as [x|].
  - pose proof (Hc x eq_refl).
    destruct (py_min_cases (vmax_cap p) x) as [[_ E] | [_ E]]; rewrite E;
      cmp_cases; lra.
  - cmp_cases; lra.
Qed.

(** One pass on rounded numbers keeps the velocity, the distance and the
    peak where they belong.  The distance stays non-negative because the
    surplus taken back is at most the rounded local distance, which is at
    most the rounded total. *)
Lemma loop_body_fl_keeps (rnd : Q -> Q) (v0 : Q) (e : entry)
    (p : PhysicalParams) (c : option Q) (st st' : sim_state) (sl : Q)
    (next : option Q) :
  rounding rnd -> 0 < vmax_cap p -> (forall x, c = Some x -> 0 <= x) ->
  rounded_bounds v0 (fst (fst e)) st sl -> sl < fst (fst e) ->
  loop_body_fl rnd e p c st sl = Ok (st', next) ->
  rounded_bounds v0 (fst (fst e)) st'
    (match next with Some sl' => sl' | None => fst (fst e) end).
Proof.
  intros Hr Hcap Hc (Jv & Js & Jm & Jl) G B.
  destruct (Jl G) as [L0 L1]. clear Jl.
  destruct e as [[ds ss] sc]. simpl fst in *.
  unfold loop_body_fl in B.
  destruct (step_velocity_fl rnd (sim_v st) ss sc p (dt p) c)
    as [[v' a]|x] eqn:S; [|discriminate].
  pose proof (step_velocity_fl_nonneg rnd _ _ _ _ _ _ _ _ Hcap Hc S) as Hv'.
  unfold bind in B. cbv zeta in B.
  pose proof (py_max_lub (sim_vmax_seen st) v') as [M1 M2].
  set (d := rnd (v' * dt p)) in *.
  destruct (Qle_bool d (rnd (1 # 1000000))) eqn:E1.
  - injection B as <- <-. unfold rounded_bounds. simpl.
    repeat split; try lra.
  - apply Qle_bool_false in E1.
    assert (Hd : 0 < d).
    { pose proof (rounding_nonneg rnd (1 # 1000000) Hr). lra. }
    destruct Hr as (Mono & Idem & Zero).
    assert (Hsl : 0 <= rnd (sl + d)).
    { pose proof (Mono 0 (sl + d)). lra. }
    assert (Hle : rnd (sl + d) <= rnd (sim_s_acc st + d)).
    { apply Mono. lra. }
    destruct (Qlt_bool ds (rnd (sl + d))) eqn:E2.
    + apply Qlt_bool_true in E2. injection B as <- <-.
      unfold rounded_bounds. simpl.
      assert (Hsur : rnd (rnd (sl + d) - ds) <= rnd (sl + d)).
      { pose proof (Mono (rnd (sl + d) - ds) (rnd (sl + d))).
        pose proof (Idem (sl + d)). lra. }
      assert (Hs' : 0 <= rnd (rnd (sim_s_acc st + d)
                               - rnd (rnd (sl + d) - ds))).
      { pose proof (Mono 0 (rnd (sim_s_acc st + d)
                            - rnd (rnd (sl + d) - ds))). lra. }
      repeat split; try lra.
    + apply Qlt_bool_false in E2. injection B as <- <-.
      unfold rounded_bounds. simpl.
      repeat split; try lra.
Qed.

Lemma while_loop_fl_bounds (rnd : Q -> Q) (v0 : Q) (e : entry)
    (p : PhysicalParams) (c : option Q) :
  rounding rnd -> 0 < vmax_cap p -> (forall x, c = Some x -> 0 <= x) ->
  forall (fuel : nat) (st st' : sim_state) (sl : Q),
    rounded_bounds v0 (fst (fst e)) st sl ->
    while_loop_fl rnd fuel e p c st sl = Some (Ok st') ->
    0 <= sim_v st' /\ 0 <= sim_s_acc st' /\ v0 <= sim_vmax_seen st'.
Proof.
  intros Hr Hcap Hc.
  induction fuel as [|fuel IH]; intros st st' sl HJ W; [discriminate|].
  simpl in W. destruct (guard e st sl) eqn:G.
  - apply guard_true in G. destruct G as [G _].
    destruct (loop_body_fl rnd e p c st sl) as [[st1 next]|x] eqn:B;
      [|discriminate].
    pose proof (loop_body_fl_keeps rnd v0 e p c st st1 sl next
                  Hr Hcap Hc HJ G B) as HJ1.
    destruct next as [sl1|].
    + exact (IH st1 st' sl1 HJ1 W).
    + injection W as <-. destruct HJ1 as (A & B' & C & _). auto.
  - injection W as <-. destruct HJ as (A & B & C & _). auto.
Qed.

Lemma for_loop_fl_bounds (rnd : Q -> Q) (v0 : Q) (p : PhysicalParams)
    (radii : option (list (option Q))) (fuel : nat) :
  rounding rnd -> 0 < vmax_cap p ->
  forall (profile : list entry) (idx : nat) (st st' : sim_state),
    0 <= sim_v st /\ 0 <= sim_s_acc st /\ v0 <= sim_vmax_seen st ->
    for_loop_fl rnd fuel profile p radii idx st = Some (Ok st') ->
    0 <= sim_v st' /\ 0 <= sim_s_acc st' /\ v0 <= sim_vmax_seen st'.
Proof.
  intros Hr Hcap.
  induction profile as [|e rest IH]; intros idx st st' HJ F.
  - simpl in F. injection F as <-. exact HJ.
  - simpl in F.
    destruct (while_loop_fl rnd fuel e p (curve_cap_fl rnd p radii idx) st 0)
      as [[st1|x]|] eqn:W; try discriminate.
    assert (HJ1 : 0 <= sim_v st1 /\ 0 <= sim_s_acc st1 /\
                  v0 <= sim_vmax_seen st1).
    { apply (while_loop_fl_bounds rnd v0 e p (curve_cap_fl rnd p radii idx)
               Hr Hcap (curve_cap_fl_nonneg rnd p radii idx)
               fuel st st1 0); [|exact W].
      destruct HJ as (A & B & C). unfold rounded_bounds.
      repeat split; try assumption; lra. }
    destruct (Qle_bool (sim_v st1) 0).
    + injection F as <-. exact HJ1.
    + exact (IH (S idx) st1 st' HJ1 F).
Qed.

(** Whatever the rounding and however many passes it takes, a run of
    [simulate_segment] on rounded numbers that returns gives a distance and
    an exit velocity that are not negative and a peak velocity of at least
    [v0]. *)
Lemma simulate_segment_fl_bounds (rnd : Q -> Q) (fuel : nat)
    (profile : list entry) (v0 : Q) (p : PhysicalParams)
    (radii : option (list (option Q))) (s t v vm : Q) :
  rounding rnd -> 0 < vmax_cap p -> 0 <= v0 ->
  simulate_segment_fl rnd fuel profile v0 p radii = Some (Ok (s, t, v, vm)) ->
  0 <= s /\ 0 <= v /\ v0 <= vm.
Proof.
  intros Hr Hcap Hv. unfold simulate_segment_fl.
  destruct (for_loop_fl rnd fuel profile p radii 0 (mkSim v0 0 0 v0))
    as [[st'|x]|] eqn:F; try discriminate.
  intro H. injection H as <- _ <- <-.
  destruct (for_loop_fl_bounds rnd v0 p radii fuel Hr Hcap profile 0
              (mkSim v0 0 0 v0) st') as (A & B & C); [|exact F|tauto].
  simpl. repeat split; lra.
Qed.

(** Binary64 is such a rounding. *)
Lemma simulate_segment_b64_bounds (fuel : nat) (profile : list entry)
    (v0 : Q) (p : PhysicalParams) (radii : option (list (option Q)))
    (s t v vm : Q) :
  0 < vmax_cap p -> 0 <= v0 ->
  simulate_segment_fl round_b64 fuel profile v0 p radii
    = Some (Ok (s, t, v, vm)) ->
  0 <= s /\ 0 <= v /\ v0 <= vm.
Proof.
  apply simulate_segment_fl_bounds. exact round_b64_rounding.
Qed.

(** Without rounding the rounded definitions are the exact ones. *)
Lemma loop_body_fl_no_rounding (e : entry) (p : PhysicalParams)
    (c : option Q) (st : sim_state) (sl : Q) :
  loop_body_fl no_rounding e p c st sl = loop_body e p c st sl.
Proof. destruct e as [[ds ss] sc]. reflexivity. Qed.

Lemma while_loop_fl_no_rounding (e : entry) (p : PhysicalParams)
    (c : option Q) :
  forall (fuel : nat) (st : sim_state) (sl : Q),
    (substep_bound (fst (fst e)) sl <= fuel)%nat ->
    while_loop_fl no_rounding fuel e p c st sl
      = Some (while_loop (substep_bound (fst (fst e)) sl) e p c st sl).
Proof.
  induction fuel as [|fuel IH]; intros st sl Hf.
  - unfold substep_bound in Hf. lia.
  - rewrite while_loop_unfold.
    change (while_loop_fl no_rounding (S fuel) e p c st sl) with
      (if guard e st sl then
         match loop_body_fl no_rounding e p c st sl with
         | Raise x => Some (Raise x)
         | Ok (st', None) => Some (Ok st')
         | Ok (st', Some s_local') =>
             while_loop_fl no_rounding fuel e p c st' s_local'
         end
       else Some (Ok st)).
    destruct (guard e st sl) eqn:G; [|reflexivity].
    apply guard_true in G. destruct G as [G _].
    rewrite loop_body_fl_no_rounding.
    destruct (loop_body e p c st sl) as [[st1 [sl1|]]|x] eqn:B;
      try reflexivity.
    unfold bind. apply IH.
    pose proof (substep_bound_decreases (fst (fst e)) sl sl1 G
                  (loop_body_progress e p c st st1 sl sl1 G B)). lia.
Qed.

Lemma for_loop_fl_no_rounding (p : PhysicalParams)
    (radii : option (list (option Q))) (fuel : nat) :
  forall (profile : list entry) (idx : nat) (st : sim_state),
    Forall (fun e => (substep_bound (fst (fst e)) 0 <= fuel)%nat) profile ->
    for_loop_fl no_rounding fuel profile p radii idx st
      = Some (for_loop profile p radii idx st).
Proof.
  induction profile as [|e rest IH]; intros idx st Hall.
  - reflexivity.
  - inversion Hall as [|e' rest' He Hrest]; subst.
    rewrite for_loop_cons.
    change (for_loop_fl no_rounding fuel (e :: rest) p radii idx st) with
      (match while_loop_fl no_rounding fuel e p (curve_cap p radii idx) st 0
       with
       | None => None
       | Some (Raise x) => Some (Raise x)
       | Some (Ok st') =>
           if Qle_bool (sim_v st') 0 then Some (Ok st')
           else for_loop_fl no_rounding fuel rest p radii (S idx) st'
       end).
    rewrite (while_loop_fl_no_rounding e p (curve_cap p radii idx) fuel st 0
               He).
    destruct (while_loop _ e p (curve_cap p radii idx) st 0) as [st1|x];
      [|reflexivity].
    unfold bind. destruct (Qle_bool (sim_v st1) 0); [reflexivity|].
    apply IH. exact Hrest.
Qed.

(** The exact simulation is the rounded one without rounding, once every
    entry has the passes it needs. *)
Lemma simulate_segment_fl_no_rounding (fuel : nat) (profile : list entry)
    (v0 : Q) (p : PhysicalParams) (radii : option (list (option Q))) :
  Forall (fun e => (substep_bound (fst (fst e)) 0 <= fuel)%nat) profile ->
  simulate_segment_fl no_rounding fuel profile v0 p radii
    = Some (simulate_segment profile v0 p radii).
Proof.
  intro Hall. unfold simulate_segment_fl, simulate_segment.
  rewrite (for_loop_fl_no_rounding p radii fuel profile 0 _ Hall).
  destruct (for_loop profile p radii 0 (mkSim v0 0 0 v0)) as [st'|x];
    reflexivity.
Qed.






(** ** The stall *)

(** At every evaluation of the guard, what is left of the run is
    [resume_in_entry]. *)
Lemma resume_at_guard (profile : list entry) (v0 : Q) (p : PhysicalParams)
    (radii : option (list (option Q))) (idx : nat) (e : entry)
    (rest : list entry) (st : sim_state) (sl : Q) :
  at_guard profile v0 p radii idx e rest st sl ->
  for_loop profile p radii 0 (mkSim v0 0 0 v0) =
    resume_in_entry e rest p radii idx st sl.
Proof.
  induction 1 as [e rest Hprof
                 | idx e rest st sl st' sl' _ IH G B
                 | idx e e' rest st sl _ IH G V].
  - subst profile. reflexivity.
  - rewrite IH. unfold resume_in_entry.
    rewrite (while_loop_unfold e p (curve_cap p radii idx) st sl).
    rewrite G, B. reflexivity.
  - rewrite IH. unfold resume_in_entry.
    rewrite (while_loop_unfold e p (curve_cap p radii idx) st sl).
    rewrite G. unfold bind. rewrite V. reflexivity.
Qed.

(** C5: when the run of [simulate_segment] enters the body of the [while]
    loop and the step gives a velocity [v'] with [v' * dt <= 1e-6], the run
    ends there: it returns the exit velocity 0 and the distance, the time and
    the peak velocity as they were before that pass, whatever entries
    follow. *)
Theorem stall_ends_simulation (profile : list entry) (v0 : Q)
    (p : PhysicalParams) (radii : option (list (option Q))) (idx : nat)
    (e : entry) (rest : list entry) (st : sim_state) (sl v' a : Q) :
  at_guard profile v0 p radii idx e rest st sl ->
  guard e st sl = true ->
  step_velocity (sim_v st) (snd (fst e)) (snd e) p (dt p)
    (curve_cap p radii idx) = Ok (v', a) ->
  v' * dt p <= 1 # 1000000 ->
  simulate_segment profile v0 p radii =
    Ok (sim_s_acc st, sim_t st, 0, sim_vmax_seen st).
Proof.
  intros Hat G Hstep Hstall. unfold simulate_segment.
  rewrite (resume_at_guard profile v0 p radii idx e rest st sl Hat).
  unfold resume_in_entry.
  rewrite (while_loop_unfold e p (curve_cap p radii idx) st sl), G.
  destruct e as [[ds ss] sc]. simpl in Hstep.
  unfold loop_body. rewrite Hstep. unfold bind.
  apply Qle_bool_iff in Hstall. rewrite Hstall. reflexivity.
Qed.

(** ** Curvature *)

(** The last element of a list has what all its elements have. *)
Lemma last_Forall {A : Type} (P : A -> Prop) (l : list A) (d : A) :
  l <> [] -> Forall P l -> P (last l d).
Proof.
  induction l as [|x l IH]; intros Hne Hall; [congruence|].
  inversion Hall as [|? ? Hx Hl]; subst.
  destruct l as [|y l]; [exact Hx|].
  apply IH; [discriminate | exact Hl].
Qed.

(** A radius that [segment_radius] returns has passed the four tests. *)
Lemma segment_radius_pos (points : list Point) (n i : nat) (r : Q) :
  segment_radius points n i = Some r -> 0 < r.
Proof.
  unfold segment_radius.
  destruct ((i =? 0)%nat || (i =? n - 2)%nat); [discriminate|].
  set (a := nth (i - 1) points (0, 0)).
  set (b := nth i points (0, 0)).
  set (c := nth (i + 1) points (0, 0)).
  set (ab := hypot (px b - px a) (py b - py a)).
  set (bc := hypot (px c - px b) (py c - py b)).
  set (ac := hypot (px c - px a) (py c - py a)).
  set (area2 := triangle_area_doubled _ _ _ _ _ _).
  destruct (Qle_bool area2 (1 # 1000000)) eqn:E1; [discriminate|].
  destruct (Qle_bool ab (1 # 1000000)) eqn:E2; [discriminate|].
  destruct (Qle_bool bc (1 # 1000000)) eqn:E3; [discriminate|].
  destruct (Qle_bool ac (1 # 1000000)) eqn:E4; [discriminate|].
  simpl. intro H. injection H as <-.
  apply Qle_bool_false in E1, E2, E3, E4.
  assert (H1 : 0 < ab * bc) by nra.
  assert (H2 : 0 < ab * bc * ac) by nra.
  apply Qlt_shift_div_l; lra.
Qed.

(** C8: [compute_segment_radii] on [N] points returns [max(0, N-1)]
    entries; the first and the last of them are [None]; all of them are
    [None] when [N < 3]; and an entry that is a radius is positive. *)
Theorem compute_segment_radii_shape (points : list Point) :
  let radii := compute_segment_radii points in
  Z.of_nat (length radii) = Z.max 0 (Z.of_nat (length points) - 1) /\
  (forall r, hd_error radii = Some r -> r = None) /\
  (radii <> [] -> last radii (Some 0) = None) /\
  ((length points < 3)%nat -> Forall (fun r => r = None) radii) /\
  (forall r, In (Some r) radii -> 0 < r).
Proof.
  unfold compute_segment_radii. cbv zeta.
  set (n := length points).
  destruct (n <? 3)%nat eqn:E.
  - apply Nat.ltb_lt in E.
    set (k := Z.to_nat (Z.max 0 (Z.of_nat n - 1))).
    assert (Hall : Forall (fun r : option Q => r = None) (repeat None k)).
    { apply Forall_forall. intros r Hr. apply repeat_spec in Hr. exact Hr. }
    repeat split.
    + rewrite repeat_length. unfold k. lia.
    + intros r Hr. destruct k; simpl in Hr; [discriminate|].
      injection Hr as <-. reflexivity.
    + intro Hne. exact (last_Forall _ _ _ Hne Hall).
    + intros _. exact Hall.
    + intros r Hr. apply repeat_spec in Hr. discriminate.
  - apply Nat.ltb_ge in E.
    assert (Hn : (n - 1 = S (n - 2))%nat) by lia.
    repeat split.
    + rewrite length_map, length_seq. lia.
    + rewrite Hn. simpl. intros r Hr. injection Hr as <-. reflexivity.
    + intros _. rewrite Hn, seq_S, map_app. cbn [map].
      rewrite last_last. unfold segment_radius. cbn [Nat.add].
      rewrite Nat.eqb_refl, orb_true_r. reflexivity.
    + intro Hlt. lia.
    + intros r Hr. apply in_map_iff in Hr. destruct Hr as (i & Hi & _).
      exact (segment_radius_pos points n i r Hi).
Qed.

(** ** The slope profile *)

Lemma nth_list_set_eq {A : Type} (l : list A) (i : nat) (x d : A) :
  (i < length l)%nat -> nth i (list_set l i x) d = x.
Proof.
  revert i. induction l as [|h tl IH]; intros i Hi; simpl in *; [lia|].
  destruct i as [|i]; [reflexivity|]. simpl. apply IH. lia.
Qed.

Lemma nth_list_set_neq {A : Type} (l : list A) (i j : nat) (x d : A) :
  i <> j -> nth j (list_set l i x) d = nth j l d.
Proof.
  revert i j. induction l as [|h tl IH]; intros i j Hij; simpl.
  - destruct i; reflexivity.
  - destruct i as [|i], j as [|j]; simpl; try reflexivity; try lia.
    apply IH. lia.
Qed.

(** [valid[i]] says that [z[i]] is a number. *)
Lemma nth_valid (z : list (option Q)) (i : nat) :
  nth i (map (fun e => negb (isnan e)) z) false
    = negb (isnan (nth i z None)).
Proof.
  exact (map_nth (fun e => negb (isnan e)) z None i).
Qed.

Lemma collect_ok {A B : Type} (f : A -> result B) (l : list A) :
  (forall x, In x l -> exists y, f x = Ok y) ->
  exists ys, collect f l = Ok ys.
Proof.
  induction l as [|x tl IH]; intro H; simpl.
  - eauto.
  - destruct (H x (or_introl eq_refl)) as [y Ey].
    destruct IH as [ys Eys]; [intros x' Hx'; apply H; right; exact Hx'|].
    rewrite Ey, Eys. simpl. eauto.
Qed.

(** The repair always finds a sample to interpolate from. *)
Lemma repair_elevations_ok (n : nat) (z : list (option Q)) :
  length z = n -> (2 <= n)%nat ->
  exists z', repair_elevations n z = Ok z'.
Proof.
  intros Hlen Hn. unfold repair_elevations.
  destruct (forallb isnan z); [eauto|].
  set (valid := map (fun e => negb (isnan e)) z).
  set (z1 := if negb (nth 0 valid false) then _ else z).
  set (z2 := if negb (nth (n - 1) valid false) then _ else z1).
  assert (H1 : isnan (nth 0 z1 None) = false /\ length z1 = n).
  { unfold z1. destruct (negb (nth 0 valid false)) eqn:V.
    - destruct (flatnonzero valid) as [|i l] eqn:F.
      + split.
        * rewrite nth_list_set_eq by lia. reflexivity.
        * destruct z; simpl in *; lia.
      + assert (Hi : In i (flatnonzero valid)) by (rewrite F; left; auto).
        unfold flatnonzero in Hi. apply filter_In in Hi.
        destruct Hi as [_ Hi]. unfold valid in Hi. rewrite nth_valid in Hi.
        split.
        * rewrite nth_list_set_eq by lia.
          apply negb_true_iff in Hi. exact Hi.
        * destruct z; simpl in *; lia.
    - split; [|exact Hlen].
      apply negb_false_iff in V. unfold valid in V. rewrite nth_valid in V.
      apply negb_true_iff in V. exact V. }
  assert (H2 : isnan (nth 0 z2 None) = false).
  { unfold z2. destruct (negb (nth (n - 1) valid false)); [|apply H1].
    destruct (flatnonzero valid);
      rewrite nth_list_set_neq by lia; apply H1. }
  unfold np_interp.
  set (sel := filter _ (seq 0 n)).
  assert (Hsel : In 0%nat sel).
  { unfold sel. apply filter_In. split.
    - apply in_seq. lia.
    - rewrite nth_valid, H2. reflexivity. }
  destruct sel as [|i0 l0]; [destruct Hsel|].
  simpl. eauto.
Qed.

(** No entry of the profile divides by zero. *)
Lemma profile_entry_ok (points : list Point) (z : list Q) (i : nat) :
  exists e, profile_entry points z i = Ok e.
Proof.
  unfold profile_entry.
  destruct (Qle_bool _ (1 # 1000000000)); [eauto|].
  match goal with
  | |- context [Qeq_bool (sqrt ?x) 0] =>
      assert (Hx : 0 < x) by nra;
      pose proof (sqrt_pos x Hx) as Hs;
      destruct (Qeq_bool (sqrt x) 0) eqn:E
  end.
  - apply Qeq_bool_iff in E. lra.
  - eauto.
Qed.

(** C10: [build_profile_from_points] raises exactly when the points and
    the elevations differ in number; for as many elevations as points and
    fewer than two points it returns the empty profile. *)
Theorem build_profile_raises_iff (points : list Point)
    (elevations : list (option Q)) :
  ((exists x, build_profile_from_points points elevations = Raise x)
   <-> length points <> length elevations) /\
  (length points = length elevations -> (length points < 2)%nat ->
   build_profile_from_points points elevations = Ok []).
Proof.
  unfold build_profile_from_points.
  destruct (length points =? length elevations)%nat eqn:E; simpl.
  - apply Nat.eqb_eq in E.
    destruct (length points <? 2)%nat eqn:L.
    + split; [|reflexivity].
      split; [intros [x Hx]; discriminate | congruence].
    + apply Nat.ltb_ge in L. split; [|intros _ H; lia].
      split; [|congruence]. intros [x Hx]. exfalso.
      destruct (repair_elevations_ok (length points) elevations
                  (eq_sym E) L) as [z Hz].
      rewrite Hz in Hx. simpl in Hx.
      destruct (collect_ok (profile_entry points z)
                  (seq 0 (length points - 1))) as [ys Hys].
      { intros i _. apply profile_entry_ok. }
      rewrite Hys in Hx. discriminate.
  - apply Nat.eqb_neq in E. split; [|congruence].
    split; [intros _; exact E | intros _; eauto].
Qed.

(** ** Lines *)

Lemma hypot_nonneg (x y : Q) : 0 <= hypot x y.
Proof. unfold hypot. apply sqrt_nonneg. nra. Qed.

Lemma hypot_zero (x y : Q) : hypot x y <= 0 -> x == 0 /\ y == 0.
Proof.
  unfold hypot. intro H.
  destruct (Qlt_le_dec 0 (x * x + y * y)) as [L | L].
  - pose proof (sqrt_pos _ L). lra.
  - split; nra.
Qed.

Lemma line_length_cons (a b : Point) (tl : list Point) :
  line_length (a :: b :: tl) = distance a b + line_length (b :: tl).
Proof. reflexivity. Qed.

Lemma line_length_nonneg (line : LineString) : 0 <= line_length line.
Proof.
  induction line as [|a tl IH]; [simpl; lra|].
  destruct tl as [|b tl]; [simpl; lra|].
  rewrite line_length_cons.
  pose proof (hypot_nonneg (px b - px a) (py b - py a)) as H.
  fold (distance a b) in H. lra.
Qed.

(** ** Densification *)

(** The default of [last] does not matter on a list with an element. *)
Lemma last_cons_default {A : Type} (x : A) (l : list A) (d d' : A) :
  last (x :: l) d = last (x :: l) d'.
Proof.
  revert x. induction l as [|y l IH]; intro x; [reflexivity|].
  change (last (y :: l) d = last (y :: l) d'). apply IH.
Qed.

(** The walk clamps the whole length of the line to its last coordinate. *)
Lemma locate_forward_end (line : LineString) :
  forall (a : Point) (total d : Q),
    d == total + line_length (a :: line) ->
    locate_forward (a :: line) total d = last (a :: line) a.
Proof.
  induction line as [|b tl IH]; intros a total d Hd; [reflexivity|].
  rewrite line_length_cons in Hd.
  pose proof (line_length_nonneg (b :: tl)) as Hn.
  change (locate_forward (a :: b :: tl) total d) with
    (if Qlt_bool d (total + distance a b)
     then point_along a b ((d - total) / distance a b)
     else locate_forward (b :: tl) (total + distance a b) d).
  assert (C : Qlt_bool d (total + distance a b) = false)
    by (apply Qlt_bool_false; lra).
  rewrite C, (IH b (total + distance a b) d) by lra.
  change (last (a :: b :: tl) a) with (last (b :: tl) a).
  apply last_cons_default.
Qed.

Lemma interpolate_end (a : Point) (line : LineString) :
  0 < line_length (a :: line) ->
  interpolate (a :: line) (line_length (a :: line)) = last (a :: line) a.
Proof.
  intro Hpos. unfold interpolate.
  assert (C1 : Qlt_bool (line_length (a :: line)) 0 = false)
    by (apply Qlt_bool_false; lra).
  assert (C2 : Qle_bool (line_length (a :: line)) 0 = false)
    by (apply Qle_bool_false; lra).
  rewrite C1, C2. apply locate_forward_end. lra.
Qed.

(** The values of [np.arange] stay below [stop]. *)
Lemma np_arange_below (stop step x : Q) :
  0 < step -> In x (np_arange 0 stop step) -> x < stop.
Proof.
  intros Hstep Hx. unfold np_arange in Hx.
  apply in_map_iff in Hx. destruct Hx as (i & <- & Hi).
  apply in_seq in Hi.
  set (q := (stop - 0) / step) in *.
  pose proof (Qceiling_lt q) as Hq.
  assert (Hz : (Z.of_nat i <= Qceiling q - 1)%Z) by lia.
  rewrite Zle_Qle in Hz.
  assert (Hlt : inject_Z (Z.of_nat i) < q) by lra.
  assert (Hq' : q * step == stop) by (unfold q; field; lra).
  apply (Qmult_lt_compat_r _ _ step) in Hlt; [|exact Hstep]. lra.
Qed.

(** A positive length gives [np.arange] a first value. *)
Lemma np_arange_nonempty (stop step : Q) :
  0 < step -> 0 < stop -> np_arange 0 stop step <> [].
Proof.
  intros Hstep Hstop. unfold np_arange.
  set (q := (stop - 0) / step).
  assert (Hq : 0 < q).
  { unfold q. apply Qlt_shift_div_l; lra. }
  pose proof (Qle_ceiling q) as Hc.
  assert (Hz : (0 < Qceiling q)%Z).
  { rewrite Zlt_Qlt. change (inject_Z 0) with 0. lra. }
  destruct (Z.to_nat (Qceiling q)) as [|k] eqn:K; [lia|].
  simpl. discriminate.
Qed.

(** The distances that [densify_linestring] samples on a line of positive
    length: the values of [np.arange] and then the length. *)
Lemma densify_positive (line : LineString) (step_m : Q) :
  0 < line_length line ->
  densify_linestring line step_m =
    map (interpolate line)
      (np_arange 0 (py_max 0 (line_length line))
         (py_max step_m (1 # 1000000)) ++ [line_length line]).
Proof.
  intro Hpos. unfold densify_linestring. cbv zeta.
  assert (C : Qle_bool (line_length line) 0 = false)
    by (apply Qle_bool_false; exact Hpos).
  rewrite C.
  set (dists := np_arange _ _ _).
  destruct dists as [|d0 tl] eqn:D; [reflexivity|].
  assert (Hin : In (last (d0 :: tl) d0) dists).
  { rewrite D. clear. revert d0.
    induction tl as [|y tl IH]; intro d0; [left; reflexivity|].
    right. change (last (d0 :: y :: tl) d0) with (last (y :: tl) d0).
    rewrite (last_cons_default y tl d0 y). apply IH. }
  unfold dists in Hin. apply np_arange_below in Hin.
  - destruct (py_max_cases 0 (line_length line)) as [[_ E] | [H _]];
      [|lra].
    rewrite E in Hin. apply Qlt_bool_true in Hin. rewrite Hin. reflexivity.
  - pose proof (py_max_lub step_m (1 # 1000000)). lra.
Qed.

(** A line without length has its coordinates in one place. *)
Lemma zero_length_same_location (line : LineString) :
  forall a : Point,
    line_length (a :: line) <= 0 -> same_location a (last (a :: line) a).
Proof.
  induction line as [|b tl IH]; intros a H.
  - split; reflexivity.
  - rewrite line_length_cons in H.
    pose proof (line_length_nonneg (b :: tl)) as Hn.
    pose proof (hypot_nonneg (px b - px a) (py b - py a)) as Hh.
    fold (distance a b) in Hh.
    assert (Hd : distance a b <= 0) by lra.
    apply hypot_zero in Hd. destruct Hd as [Hx Hy].
    assert (Hb : line_length (b :: tl) <= 0) by lra.
    destruct (IH b Hb) as [Ix Iy].
    change (last (a :: b :: tl) a) with (last (b :: tl) a).
    rewrite (last_cons_default b tl a b).
    split; lra.
Qed.

(** C7, as amended: for a line that has a first coordinate, the last
    point that [densify_linestring] returns is the last coordinate of the
    line; when the line has no length the result is two points, the first
    coordinate and a point at the same place; when it has a positive length
    the result has at least two points. *)
Theorem densify_linestring_shape (start : Point) (rest : list Point)
    (step_m : Q) :
  let line := start :: rest in
  last (densify_linestring line step_m) start = last line start /\
  (line_length line <= 0 ->
   exists b, densify_linestring line step_m = [start; b] /\
             same_location start b) /\
  (0 < line_length line ->
   (2 <= length (densify_linestring line step_m))%nat).
Proof.
  cbv zeta. split; [|split].
  - destruct (Qlt_le_dec 0 (line_length (start :: rest))) as [Hpos | Hz].
    + rewrite (densify_positive _ step_m Hpos), map_app. cbn [map].
      rewrite last_last. apply interpolate_end. exact Hpos.
    + unfold densify_linestring. cbv zeta.
      apply Qle_bool_iff in Hz. rewrite Hz.
      destruct rest as [|b tl]; reflexivity.
  - intro Hz. unfold densify_linestring. cbv zeta.
    pose proof (zero_length_same_location rest start Hz) as Hs.
    apply Qle_bool_iff in Hz. rewrite Hz.
    destruct rest as [|b tl]; eexists; (split; [reflexivity | exact Hs]).
  - intro Hpos. rewrite (densify_positive _ step_m Hpos).
    rewrite length_map, length_app. simpl length.
    pose proof (py_max_lub step_m (1 # 1000000)) as [_ M].
    assert (Hne : np_arange 0 (py_max 0 (line_length (start :: rest)))
                    (py_max step_m (1 # 1000000)) <> []).
    { apply np_arange_nonempty; [lra|].
      pose proof (py_max_lub 0 (line_length (start :: rest))). lra. }
    destruct (np_arange _ _ _); [congruence | simpl; lia].
Qed.

(** ** Truncation *)

(** C9, as amended: truncating a line that has a first coordinate at a
    distance [<= 0] gives the two-point line at that coordinate, and
    truncating a line of positive length at its length or beyond returns
    the line itself. *)
Theorem cut_linestring_ends (line : LineString) (d : Q) :
  (d <= 0 -> forall start rest, line = start :: rest ->
     cut_linestring_at_length line d = Ok [start; start]) /\
  (0 < line_length line -> line_length line <= d ->
     cut_linestring_at_length line d = Ok line).
Proof.
  unfold cut_linestring_at_length. cbv zeta. split.
  - intros Hd start rest ->.
    destruct (py_max_cases 0 d) as [[H E] | [H E]]; [lra|]. rewrite E.
    pose proof (py_min_glb 0 (line_length (start :: rest))) as [M _].
    apply Qle_bool_iff in M. rewrite M. reflexivity.
  - intros Hpos Hd.
    destruct (py_max_cases 0 d) as [[H E] | [H E]]; [|lra]. rewrite E.
    destruct (py_min_cases d (line_length line)) as [[H' E'] | [H' E']];
      rewrite E'.
    + assert (C1 : Qle_bool (line_length line) 0 = false)
        by (apply Qle_bool_false; exact Hpos).
      assert (C2 : Qle_bool (line_length line) (line_length line) = true)
        by (apply Qle_bool_iff; lra).
      rewrite C1, C2. reflexivity.
    + assert (C1 : Qle_bool d 0 = false) by (apply Qle_bool_false; lra).
      assert (C2 : Qle_bool (line_length line) d = true)
        by (apply Qle_bool_iff; lra).
      rewrite C1, C2. reflexivity.
Qed.

(** ** The step on flat and rising ground *)

(** The drag coefficient of the step is not negative. *)
Lemma drag_factor_nonneg (p : PhysicalParams) :
  valid_params p -> 0 <= rho p * cda p / (2 * mass p).
Proof.
  intros (Hm & _ & Hc & Hr & _).
  apply Qle_shift_div_l; [lra | nra].
Qed.

(** X1: for valid parameters, a velocity [v >= 0], a time step [h >= 0]
    and a slope with [sin >= 0] and [cos >= 0] (flat or rising ground),
    [step_velocity] returns an acceleration [a <= 0] and a velocity
    [v' <= v]: without a descent the vehicle never gains speed. *)
Theorem step_velocity_retards (v ss sc : Q) (p : PhysicalParams) (h : Q)
    (c : option Q) :
  valid_params p -> 0 <= v -> 0 <= h -> 0 <= ss -> 0 <= sc ->
  exists v' a,
    step_velocity v ss sc p h c = Ok (v', a) /\ a <= 0 /\ v' <= v.
Proof.
  intros Hp Hv Hh Hss Hsc.
  pose proof (drag_factor_nonneg p Hp) as Hk.
  destruct Hp as (Hm & Hcrr & _ & _ & Hg & _).
  rewrite step_velocity_eq by exact Hm. cbv zeta.
  set (k := rho p * cda p / (2 * mass p)) in *.
  eexists. eexists. split; [reflexivity|].
  assert (Ha : - g p * ss - crr p * g p * sc - k * v * v <= 0).
  { assert (H1 : 0 <= g p * ss) by nra.
    assert (H2 : 0 <= crr p * g p) by nra.
    assert (H3 : 0 <= crr p * g p * sc) by nra.
    assert (H4 : 0 <= k * v) by nra.
    assert (H5 : 0 <= k * v * v) by nra.
    lra. }
  split; [exact Ha|].
  set (a := - g p * ss - crr p * g p * sc - k * v * v) in *.
  assert (Hah : a * h <= 0) by nra.
  clearbody a.
  destruct (py_max_cases 0 (v + a * h)) as [[M E0] | [M E0]]; rewrite E0;
    cmp_cases; lra.
Qed.

(** The velocity of the step is at most the global cap. *)
Lemma step_velocity_upper_bound (v ss sc : Q) (p : PhysicalParams) (h : Q)
    (c : option Q) (v' a : Q) :
  step_velocity v ss sc p h c = Ok (v', a) -> v' <= vmax_cap p.
Proof.
  unfold step_velocity.
  destruct (Qeq_bool (2 * mass p) 0); [discriminate|].
  cbv zeta. intro H. injection H as <- _.
  destruct c as [x|].
  - pose proof (py_min_glb (vmax_cap p) x) as [G _]. cmp_cases; lra.
  - cmp_cases; lra.
Qed.

(** ** More invariants of the simulation *)

(** A property of the loop variables that every pass keeps holds of what
    the [for] loop returns. *)
Lemma for_loop_invariant (J : sim_state -> Prop) (p : PhysicalParams)
    (radii : option (list (option Q))) :
  0 < mass p ->
  (forall idx e st sl st' next,
     J st -> sl < fst (fst e) -> 0 < sim_v st ->
     loop_body e p (curve_cap p radii idx) st sl = Ok (st', next) ->
     J st') ->
  forall (profile : list entry) (idx : nat) (st : sim_state),
    J st ->
    exists st', for_loop profile p radii idx st = Ok st' /\ J st'.
Proof.
  intros Hm Hbody.
  induction profile as [|e rest IH]; intros idx st HJ.
  - simpl. eauto.
  - rewrite for_loop_cons.
    destruct (while_loop_invariant (fun st _ => J st) J e p
                (curve_cap p radii idx) Hm) with
      (fuel := substep_bound (fst (fst e)) 0) (st := st) (sl := 0)
      as (st' & W & HJ').
    + intros st1 sl1 st2 next H1 H2 H3 H4.
      pose proof (Hbody idx e st1 sl1 st2 next H1 H2 H3 H4) as H5.
      destruct next; exact H5.
    + auto.
    + exact HJ.
    + rewrite W. unfold bind.
      destruct (Qle_bool (sim_v st') 0); eauto.
Qed.

(** Every pass keeps the loop variables physical. *)
Lemma loop_body_physical (v0 : Q) (p : PhysicalParams)
    (c : option Q) (e : entry) (st : sim_state) (sl : Q)
    (st' : sim_state) (next : option Q) :
  valid_params p -> (forall x, c = Some x -> 0 <= x) ->
  physical_bounds v0 p st -> sl < fst (fst e) -> 0 < sim_v st ->
  loop_body e p c st sl = Ok (st', next) ->
  physical_bounds v0 p st'.
Proof.
  intros Hp Hc (Jv & Jm & Jt & Js & Jc) G1 G2 B.
  assert (Hm : 0 < mass p) by apply Hp.
  assert (Hdt : 0 < dt p) by apply Hp.
  destruct e as [[ds ss] sc]. simpl fst in G1.
  destruct (step_velocity_lower_bound (sim_v st) ss sc p (dt p) c Hp Jv Hc)
    as (v1 & a1 & S1 & Hv1).
  pose proof (step_velocity_upper_bound _ _ _ _ _ _ _ _ S1) as Hv2.
  destruct (loop_body_cases ds ss sc p c st sl Hm)
    as (v' & a & S2 & Hcases).
  rewrite S1 in S2. injection S2 as <- <-.
  pose proof (py_max_lub (sim_vmax_seen st) v1) as [M1 M2].
  assert (M3 : py_max (sim_vmax_seen st) v1 <= Qmax v0 (vmax_cap p)).
  { pose proof (Q.le_max_r v0 (vmax_cap p)).
    destruct (py_max_cases (sim_vmax_seen st) v1) as [[_ E] | [_ E]];
      rewrite E; lra. }
  set (M := py_max (sim_vmax_seen st) v1) in *.
  destruct Hcases as [[_ B'] | [[Hs [Ho B']] | [Hs [Ho B']]]];
    rewrite B' in B; injection B as <- <-; unfold physical_bounds; simpl.
  - repeat split; lra.
  - pose proof (overshoot_time v1 (dt p) sl ds Hdt Hs G1 Ho) as T.
    pose proof (py_max_lub v1 (1 # 1000000)) as [N1 N2].
    set (m := py_max v1 (1 # 1000000)) in *.
    set (q := (sl + v1 * dt p - ds) / m) in *.
    assert (Hq : q * m == sl + v1 * dt p - ds) by (unfold q; field; lra).
    assert (Hq0 : 0 <= q) by nra.
    repeat split; try lra. nra.
  - repeat split; try lra. nra.
Qed.

Lemma simulate_segment_physical (profile : list entry) (v0 : Q)
    (p : PhysicalParams) (radii : option (list (option Q))) :
  valid_params p -> 0 <= v0 ->
  exists s t v vm,
    simulate_segment profile v0 p radii = Ok (s, t, v, vm) /\
    physical_bounds v0 p (mkSim v t s vm).
Proof.
  intros Hp Hv. unfold simulate_segment.
  destruct (for_loop_invariant (physical_bounds v0 p) p radii (proj1 Hp))
    with (profile := profile) (idx := 0%nat) (st := mkSim v0 0 0 v0)
    as (st' & F & HJ).
  - intros idx e st sl st' next HJ G1 G2 B.
    exact (loop_body_physical v0 p (curve_cap p radii idx) e st sl st' next
             Hp (curve_cap_nonneg p radii idx) HJ G1 G2 B).
  - unfold physical_bounds. simpl.
    pose proof (Q.le_max_l v0 (vmax_cap p)). repeat split; lra.
  - rewrite F. unfold bind. do 4 eexists. split; [reflexivity|].
    destruct st'; exact HJ.
Qed.

(** X2: for valid parameters and [v0 >= 0], the exit velocity that
    [simulate_segment] returns is at most the peak velocity, and the peak
    velocity is at most the larger of [v0] and [vmax_cap]. *)
Theorem simulate_segment_velocity_bounds (profile : list entry) (v0 : Q)
    (p : PhysicalParams) (radii : option (list (option Q))) :
  valid_params p -> 0 <= v0 ->
  exists s t v vm,
    simulate_segment profile v0 p radii = Ok (s, t, v, vm) /\
    v <= vm /\ vm <= Qmax v0 (vmax_cap p).
Proof.
  intros Hp Hv.
  destruct (simulate_segment_physical profile v0 p radii Hp Hv)
    as (s & t & v & vm & E & (_ & H1 & _ & _ & H2)).
  do 4 eexists. split; [exact E|]. split; assumption.
Qed.

(** X4: from a start velocity [v0 <= 0], [simulate_segment] returns at
    once, with distance 0, time 0 and both velocities [v0], for every
    profile, radii and parameters: a vehicle at rest is never set in motion,
    not even on a descent, and no step is computed. *)
Theorem simulate_segment_at_rest (profile : list entry) (v0 : Q)
    (p : PhysicalParams) (radii : option (list (option Q))) :
  v0 <= 0 ->
  simulate_segment profile v0 p radii = Ok (0, 0, v0, v0).
Proof.
  intro Hv. unfold simulate_segment.
  destruct profile as [|e rest]; [reflexivity|].
  rewrite for_loop_cons, while_loop_unfold.
  assert (G : guard e (mkSim v0 0 0 v0) 0 = false).
  { unfold guard. simpl sim_v.
    assert (C : Qlt_bool 0 v0 = false) by (apply Qlt_bool_false; exact Hv).
    rewrite C. apply andb_false_r. }
  rewrite G. unfold bind. simpl sim_v.
  apply Qle_bool_iff in Hv. rewrite Hv. reflexivity.
Qed.

(** ** Radii that cap nothing *)

(** X6: a radius sequence whose entries are all absent or not positive,
    of any length, gives the result of a simulation without radii. *)
Theorem simulate_segment_no_cap (profile : list entry) (v0 : Q)
    (p : PhysicalParams) (rs : list (option Q)) :
  Forall (fun r => match r with
                   | None => True
                   | Some x => x <= 0
                   end) rs ->
  simulate_segment profile v0 p (Some rs) = simulate_segment profile v0 p None.
Proof.
  intro Hall.
  assert (Hcap : forall idx, curve_cap p (Some rs) idx = None).
  { intro idx. unfold curve_cap.
    destruct (idx <? length rs)%nat eqn:L; [|reflexivity].
    apply Nat.ltb_lt in L.
    rewrite Forall_forall in Hall.
    pose proof (Hall (nth idx rs None) (nth_In rs None L)) as Hr.
    destruct (nth idx rs None) as [x|]; [|reflexivity].
    assert (C : Qlt_bool 0 x = false) by (apply Qlt_bool_false; exact Hr).
    rewrite C. reflexivity. }
  assert (H : forall idx st,
             for_loop profile p (Some rs) idx st
               = for_loop profile p None idx st).
  { induction profile as [|e rest IH]; intros idx st; [reflexivity|].
    rewrite !for_loop_cons, Hcap. simpl curve_cap.
    destruct (while_loop _ e p None st 0) as [st'|x]; [|reflexivity].
    unfold bind. destruct (Qle_bool (sim_v st') 0); [reflexivity|].
    apply IH. }
  unfold simulate_segment. rewrite H. reflexivity.
Qed.

(** ** The mass of zero *)

(** X7: with a mass of zero and a positive start velocity,
    [simulate_segment] raises [ZeroDivisionError] as soon as the profile
    has an entry of positive length; the entries before it are skipped. *)
Theorem simulate_segment_zero_mass (profile : list entry) (v0 : Q)
    (p : PhysicalParams) (radii : option (list (option Q))) :
  mass p == 0 -> 0 < v0 ->
  Exists (fun e => 0 < fst (fst e)) profile ->
  simulate_segment profile v0 p radii = Raise ZeroDivisionError.
Proof.
  intros Hm Hv Hex. unfold simulate_segment.
  assert (Hstep : forall v ss sc h c,
             step_velocity v ss sc p h c = Raise ZeroDivisionError).
  { intros. unfold step_velocity.
    assert (E : Qeq_bool (2 * mass p) 0 = true)
      by (apply Qeq_bool_iff; rewrite Hm; reflexivity).
    rewrite E. reflexivity. }
  assert (Hv' : Qle_bool v0 0 = false) by (apply Qle_bool_false; exact Hv).
  assert (Hv'' : Qlt_bool 0 v0 = true) by (apply Qlt_bool_true; exact Hv).
  assert (H : forall idx,
             for_loop profile p radii idx (mkSim v0 0 0 v0)
               = Raise ZeroDivisionError).
  { induction Hex as [e rest He | e rest _ IH]; intro idx;
      rewrite for_loop_cons, while_loop_unfold; unfold guard; simpl sim_v;
      rewrite Hv''.
    - assert (C : Qlt_bool 0 (fst (fst e)) = true)
        by (apply Qlt_bool_true; exact He).
      rewrite C. simpl andb. destruct e as [[ds ss] sc].
      unfold loop_body. rewrite Hstep. reflexivity.
    - destruct (Qlt_bool 0 (fst (fst e))) eqn:C; simpl andb.
      + destruct e as [[ds ss] sc].
        unfold loop_body. rewrite Hstep. reflexivity.
      + unfold bind. simpl sim_v. rewrite Hv'. apply IH. }
  rewrite H. reflexivity.
Qed.

(** ** Profiles end to end *)

(** The loop over two profiles end to end. *)
Lemma for_loop_concat (p1 p2 : list entry) (p : PhysicalParams)
    (radii : option (list (option Q))) (idx : nat) (st : sim_state) :
  for_loop (p1 ++ p2) p radii idx st =
    do st' <- for_loop p1 p radii idx st;
    if Qle_bool (sim_v st') 0 then Ok st'
    else for_loop p2 p radii (idx + length p1) st'.
Proof.
  revert idx st. induction p1 as [|e rest IH]; intros idx st.
  - simpl app. simpl for_loop at 2. unfold bind. rewrite Nat.add_0_r.
    destruct (Qle_bool (sim_v st) 0) eqn:V; [|reflexivity].
    destruct p2 as [|e2 rest2]; [reflexivity|].
    rewrite for_loop_cons, while_loop_unfold.
    assert (G : guard e2 st 0 = false).
    { unfold guard. apply Qle_bool_iff in V.
      assert (C : Qlt_bool 0 (sim_v st) = false)
        by (apply Qlt_bool_false; exact V).
      rewrite C. apply andb_false_r. }
    rewrite G. unfold bind. rewrite V. reflexivity.
  - change ((e :: rest) ++ p2) with (e :: (rest ++ p2)).
    rewrite !for_loop_cons.
    destruct (while_loop _ e p (curve_cap p radii idx) st 0) as [st'|x];
      [|reflexivity].
    unfold bind at 1 3.
    destruct (Qle_bool (sim_v st') 0) eqn:V.
    + unfold bind. rewrite V. reflexivity.
    + rewrite IH. simpl length. rewrite Nat.add_succ_r. reflexivity.
Qed.

(** ** More on densification *)

(** X9: [densify_linestring] starts at the start of the line: the first
    point it returns for a line that has a coordinate is the first
    coordinate of the line, whatever the length of the line and the step. *)
Theorem densify_linestring_first_point (start : Point) (rest : list Point)
    (step_m : Q) :
  hd start (densify_linestring (start :: rest) step_m) = start.
Proof.
  destruct (Qlt_le_dec 0 (line_length (start :: rest))) as [Hpos | Hz].
  - rewrite (densify_positive _ step_m Hpos).
    set (L := line_length (start :: rest)) in *.
    set (step := py_max step_m (1 # 1000000)).
    assert (Hstep : 0 < step).
    { pose proof (py_max_lub step_m (1 # 1000000)). unfold step. lra. }
    destruct (py_max_cases 0 L) as [[_ E] | [H _]]; [|lra]. rewrite E.
    unfold np_arange.
    assert (Hc : Qceiling ((L - 0) / step) = Qceiling (L / step)).
    { apply Qceiling_comp. field. lra. }
    rewrite Hc.
    assert (Hq : 0 < L / step) by (apply Qlt_shift_div_l; lra).
    pose proof (Qle_ceiling (L / step)) as Hceil.
    assert (Hz : (0 < Qceiling (L / step))%Z).
    { rewrite Zlt_Qlt. change (inject_Z 0) with 0. lra. }
    destruct (Z.to_nat (Qceiling (L / step))) as [|k] eqn:K; [lia|].
    cbn [seq map app hd]. unfold interpolate.
    set (d := 0 + inject_Z (Z.of_nat 0) * step).
    assert (Hd : d == 0) by (unfold d; change (inject_Z (Z.of_nat 0)) with 0;
                             ring).
    assert (C1 : Qlt_bool d 0 = false) by (apply Qlt_bool_false; lra).
    assert (C2 : Qle_bool d 0 = true) by (apply Qle_bool_iff; lra).
    rewrite C1, C2. reflexivity.
  - unfold densify_linestring. cbv zeta.
    apply Qle_bool_iff in Hz. rewrite Hz.
    destruct rest as [|b tl]; reflexivity.
Qed.

(** ** More on the slope profile *)

(** The pairs of sample points and values, as one list. *)
Lemma combine_map {A B C : Type} (f : A -> B) (h : A -> C) (l : list A) :
  combine (map f l) (map h l) = map (fun x => (f x, h x)) l.
Proof.
  induction l as [|x l IH]; simpl; [reflexivity|]. rewrite IH. reflexivity.
Qed.

(** Indexing into the image of a list. *)
Lemma nth_map_lt {A B : Type} (f : A -> B) (l : list A) (i : nat) (d : B)
    (d' : A) :
  (i < length l)%nat -> nth i (map f l) d = f (nth i l d').
Proof.
  revert i. induction l as [|x l IH]; intros i Hi; simpl in *; [lia|].
  destruct i as [|i]; [reflexivity|]. apply IH. lia.
Qed.

(** [np.interp] at a sample point returns the sample. *)
Lemma interp1_at_sample (val : nat -> Q) (sel : list nat) (i : nat) :
  StronglySorted lt sel -> In i sel ->
  interp1 (map (fun j => (inject_Z (Z.of_nat j), val j)) sel)
    (inject_Z (Z.of_nat i)) = val i.
Proof.
  intros Hs Hi. induction Hs as [|j tl Htl IH Hj]; [destruct Hi|].
  destruct tl as [|k tl'].
  - destruct Hi as [-> | []]. reflexivity.
  - cbn [map interp1].
    rewrite Forall_forall in Hj.
    destruct Hi as [-> | Hi].
    + assert (Hik : (i < k)%nat) by (apply Hj; left; reflexivity).
      assert (C1 : Qlt_bool (inject_Z (Z.of_nat i)) (inject_Z (Z.of_nat k))
                   = true).
      { apply Qlt_bool_true. rewrite <- Zlt_Qlt. lia. }
      assert (C2 : Qle_bool (inject_Z (Z.of_nat i)) (inject_Z (Z.of_nat i))
                   = true)
        by (apply Qle_bool_iff; lra).
      rewrite C1, C2. reflexivity.
    + assert (Hki : (k <= i)%nat).
      { destruct Hi as [-> | Hi]; [lia|].
        inversion Htl as [|? ? _ Hk]; subst.
        rewrite Forall_forall in Hk. specialize (Hk i Hi). lia. }
      assert (C1 : Qlt_bool (inject_Z (Z.of_nat i)) (inject_Z (Z.of_nat k))
                   = false).
      { apply Qlt_bool_false. rewrite <- Zle_Qle. lia. }
      rewrite C1. apply IH. exact Hi.
Qed.

(** The indices that a filter keeps of [0 .. n-1] are increasing. *)
Lemma filter_seq_sorted (f : nat -> bool) (a n : nat) :
  StronglySorted lt (filter f (seq a n)).
Proof.
  revert a. induction n as [|n IH]; intro a; simpl; [constructor|].
  destruct (f a).
  - constructor; [apply IH|].
    apply Forall_forall. intros x Hx.
    apply filter_In in Hx. destruct Hx as [Hx _].
    apply in_seq in Hx. lia.
  - apply IH.
Qed.

Lemma length_list_set {A : Type} (l : list A) (i : nat) (x : A) :
  length (list_set l i x) = length l.
Proof.
  revert i. induction l as [|h tl IH]; intro i; simpl.
  - destruct i; reflexivity.
  - destruct i; simpl; [reflexivity|]. rewrite IH. reflexivity.
Qed.

(** The repair leaves a sampled elevation where it is. *)
Lemma repair_elevations_sample (n : nat) (z : list (option Q))
    (i : nat) (e : Q) :
  length z = n -> (2 <= n)%nat -> (i < n)%nat ->
  nth i z None = Some e ->
  exists z', repair_elevations n z = Ok z' /\
             length z' = n /\ nth i z' 0 = e.
Proof.
  intros Hlen Hn Hi He. unfold repair_elevations.
  destruct (forallb isnan z) eqn:A.
  { exfalso. rewrite forallb_forall in A.
    assert (Hin : In (nth i z None) z) by (apply nth_In; lia).
    specialize (A _ Hin). rewrite He in A. discriminate. }
  set (valid := map (fun e => negb (isnan e)) z).
  assert (Hvi : nth i valid false = true).
  { unfold valid. rewrite nth_valid, He. reflexivity. }
  set (z1 := if negb (nth 0 valid false) then _ else z).
  set (z2 := if negb (nth (n - 1) valid false) then _ else z1).
  assert (H1 : nth i z1 None = Some e).
  { unfold z1. destruct (negb (nth 0 valid false)) eqn:V; [|exact He].
    assert (Hi0 : i <> 0%nat).
    { intros ->. rewrite Hvi in V. discriminate. }
    destruct (flatnonzero valid);
      rewrite nth_list_set_neq by lia; exact He. }
  assert (H2 : nth i z2 None = Some e).
  { unfold z2. destruct (negb (nth (n - 1) valid false)) eqn:V; [|exact H1].
    assert (Hi0 : i <> (n - 1)%nat).
    { intros ->. rewrite Hvi in V. discriminate. }
    destruct (flatnonzero valid);
      rewrite nth_list_set_neq by lia; exact H1. }
  unfold np_interp.
  set (sel := filter _ (seq 0 n)).
  assert (Hsel : In i sel).
  { unfold sel. apply filter_In. split.
    - apply in_seq. lia.
    - rewrite nth_valid, H2. reflexivity. }
  set (val := fun j => match nth j z2 None with
                       | Some e0 => e0
                       | None => 0
                       end).
  set (inj := fun j : nat => inject_Z (Z.of_nat j)).
  destruct (map val sel) as [|y0 l0] eqn:M.
  { destruct sel; [destruct Hsel | discriminate]. }
  rewrite <- M. eexists. split; [reflexivity|].
  split; [rewrite !length_map, length_seq; reflexivity|].
  rewrite combine_map.
  rewrite (nth_map_lt _ _ i 0 0) by (rewrite length_map, length_seq; lia).
  rewrite (nth_map_lt _ _ i 0 0%nat) by (rewrite length_seq; lia).
  rewrite seq_nth by lia. simpl Nat.add. unfold inj.
  rewrite (interp1_at_sample val sel i (filter_seq_sorted _ 0 n) Hsel).
  unfold val. rewrite H2. reflexivity.
Qed.

(** X10: the repair of the elevations keeps their number and every
    elevation that was sampled: for [n >= 2] elevations of which the one at
    index [i] is a number [e], [repair_elevations] returns [n] values and
    [e] at index [i]. *)
Theorem repair_elevations_keeps_samples (n : nat) (z : list (option Q))
    (i : nat) (e : Q) :
  length z = n -> (2 <= n)%nat -> (i < n)%nat ->
  nth i z None = Some e ->
  exists z', repair_elevations n z = Ok z' /\
             length z' = n /\ nth i z' 0 = e.
Proof. exact (repair_elevations_sample n z i e). Qed.

Lemma collect_length {A B : Type} (f : A -> result B) (l : list A)
    (ys : list B) :
  collect f l = Ok ys -> length ys = length l.
Proof.
  revert ys. induction l as [|x tl IH]; intros ys H; simpl in H.
  - injection H as <-. reflexivity.
  - destruct (f x) as [y|]; [|discriminate]. simpl in H.
    destruct (collect f tl) as [ys'|]; [|discriminate]. simpl in H.
    injection H as <-. simpl. rewrite (IH ys' eq_refl). reflexivity.
Qed.

Lemma collect_nth {A B : Type} (f : A -> result B) (l : list A)
    (ys : list B) (i : nat) (d : A) (d' : B) :
  collect f l = Ok ys -> (i < length l)%nat ->
  f (nth i l d) = Ok (nth i ys d').
Proof.
  revert ys i. induction l as [|x tl IH]; intros ys i H Hi; simpl in *.
  - lia.
  - destruct (f x) as [y|] eqn:E; [|discriminate]. simpl in H.
    destruct (collect f tl) as [ys'|]; [|discriminate]. simpl in H.
    injection H as <-. destruct i as [|i]; [exact E|].
    simpl. apply IH; [reflexivity | lia].
Qed.

(** What [build_profile_from_points] returns for as many elevations as
    points: the entries of the steps, from the repaired elevations. *)
Lemma build_profile_entries (points : list Point)
    (elevations : list (option Q)) :
  length points = length elevations ->
  exists profile,
    build_profile_from_points points elevations = Ok profile /\
    length profile = (length points - 1)%nat /\
    ((2 <= length points)%nat ->
     exists z,
       repair_elevations (length points) elevations = Ok z /\
       forall i d, (S i < length points)%nat ->
                   profile_entry points z i = Ok (nth i profile d)).
Proof.
  intro Hlen. unfold build_profile_from_points.
  apply Nat.eqb_eq in Hlen. rewrite Hlen. simpl negb. cbv iota.
  apply Nat.eqb_eq in Hlen.
  destruct (length points <? 2)%nat eqn:L.
  - apply Nat.ltb_lt in L. exists []. split; [reflexivity|].
    split; [simpl; lia | intro; lia].
  - apply Nat.ltb_ge in L.
    destruct (repair_elevations_ok (length points) elevations
                (eq_sym Hlen) L) as [z Hz].
    rewrite Hz. unfold bind.
    destruct (collect_ok (profile_entry points z)
                (seq 0 (length points - 1))) as [ys Hys].
    { intros i _. apply profile_entry_ok. }
    rewrite Hys. exists ys. split; [reflexivity|].
    pose proof (collect_length _ _ _ Hys) as Hl. rewrite length_seq in Hl.
    split; [exact Hl|]. intros _. exists z. split; [reflexivity|].
    intros i d Hi.
    pose proof (collect_nth _ _ _ i 0%nat d Hys) as Hn.
    rewrite length_seq, seq_nth in Hn by lia. apply Hn. lia.
Qed.

(** An entry is the flat placeholder, or a step of more than 1e-9 m with
    a positive cosine. *)
Lemma profile_entry_cases (points : list Point) (z : list Q) (i : nat)
    (e : entry) :
  profile_entry points z i = Ok e ->
  e = (0, 0, 1) \/ ((1 # 1000000000) < fst (fst e) /\ 0 < snd e).
Proof.
  unfold profile_entry.
  destruct (Qle_bool _ (1 # 1000000000)) eqn:C.
  - intro H. injection H as <-. left. reflexivity.
  - apply Qle_bool_false in C.
    match goal with
    | |- context [Qeq_bool (sqrt ?x) 0] =>
        assert (Hx : 0 < x) by nra;
        pose proof (sqrt_pos x Hx) as Hs;
        destruct (Qeq_bool (sqrt x) 0)
    end; [discriminate|].
    intro H. injection H as <-. right. simpl. split; [exact C|].
    apply Qlt_shift_div_l; lra.
Qed.

(** X11: for as many elevations as points, [build_profile_from_points]
    returns one entry for each step between two points, [len(points) - 1] of
    them (none for fewer than two points), and every entry is the flat
    placeholder [(0, 0, 1)] or has [ds > 1e-9] and a positive cosine; so no
    [ds] is negative. *)
Theorem build_profile_shape (points : list Point)
    (elevations : list (option Q)) :
  length points = length elevations ->
  exists profile,
    build_profile_from_points points elevations = Ok profile /\
    length profile = (length points - 1)%nat /\
    Forall (fun e => e = (0, 0, 1) \/
                     ((1 # 1000000000) < fst (fst e) /\ 0 < snd e)) profile /\
    Forall (fun e => 0 <= fst (fst e)) profile.
Proof.
  intro Hlen.
  destruct (build_profile_entries points elevations Hlen)
    as (profile & E & Hl & Hent).
  exists profile. split; [exact E|]. split; [exact Hl|].
  assert (H : Forall (fun e => e = (0, 0, 1) \/
                ((1 # 1000000000) < fst (fst e) /\ 0 < snd e)) profile).
  { apply Forall_forall. intros e He.
    destruct (In_nth profile e (0, 0, 1) He) as (i & Hi & <-).
    destruct (Nat.le_gt_cases 2 (length points)) as [L | L]; [|lia].
    destruct (Hent L) as (z & _ & Hz).
    apply (profile_entry_cases points z i). apply Hz. lia. }
  split; [exact H|].
  eapply Forall_impl; [|exact H]. intros e [-> | [Hd _]]; simpl; lra.
Qed.

(** X12: with every elevation sampled, the sine of a step of positive
    length has the sign of the change of elevation over the step: positive
    uphill, negative downhill, zero on the level. *)
Theorem build_profile_slope_sign (points : list Point) (zs : list Q) :
  length points = length zs ->
  exists profile,
    build_profile_from_points points (map Some zs) = Ok profile /\
    forall i, (S i < length points)%nat ->
      let e := nth i profile (0, 0, 1) in
      let dz := nth (S i) zs 0 - nth i zs 0 in
      0 < fst (fst e) ->
      (0 < dz -> 0 < snd (fst e)) /\
      (dz < 0 -> snd (fst e) < 0) /\
      (dz == 0 -> snd (fst e) == 0).
Proof.
  intro Hlen.
  assert (Hlen' : length points = length (map Some zs))
    by (rewrite length_map; exact Hlen).
  destruct (build_profile_entries points (map Some zs) Hlen')
    as (profile & E & Hl & Hent).
  exists profile. split; [exact E|]. intros i Hi. cbv zeta.
  assert (L : (2 <= length points)%nat) by lia.
  destruct (Hent L) as (z & Hz & Hentry).
  specialize (Hentry i (0, 0, 1) Hi).
  assert (Hs : forall j, (j < length points)%nat -> nth j z 0 = nth j zs 0).
  { intros j Hj.
    destruct (repair_elevations_sample (length points) (map Some zs) j
                (nth j zs 0) (eq_sym Hlen') L Hj) as (z' & Hz' & _ & Hn).
    - rewrite (nth_map_lt Some zs j None 0) by lia. reflexivity.
    - rewrite Hz in Hz'. injection Hz' as <-. exact Hn. }
  unfold profile_entry in Hentry.
  rewrite Nat.add_1_r in Hentry.
  rewrite (Hs (S i)), (Hs i) in Hentry by lia.
  set (ds := hypot _ _) in Hentry.
  set (dz := nth (S i) zs 0 - nth i zs 0) in *.
  destruct (Qle_bool ds (1 # 1000000000)) eqn:C.
  { injection Hentry as <-. simpl. intro H. lra. }
  apply Qle_bool_false in C.
  set (grade := dz / ds) in Hentry.
  assert (Hx : 0 < 1 + grade * grade) by nra.
  pose proof (sqrt_pos _ Hx) as Hden.
  set (denom := sqrt (1 + grade * grade)) in *.
  destruct (Qeq_bool denom 0); [discriminate|].
  injection Hentry as <-. simpl. intros _.
  assert (Hg : grade * ds == dz) by (unfold grade; field; lra).
  assert (Hsd : grade / denom * denom == grade) by (field; lra).
  set (s := grade / denom) in *.
  repeat split; intro H.
  - assert (0 < grade) by nra. nra.
  - assert (grade < 0) by nra. nra.
  - assert (grade == 0) by nra. nra.
Qed.

(** X13: with as many elevations as points and none of them sampled,
    [build_profile_from_points] returns a profile that is flat: every sine
    is 0. *)
Theorem build_profile_no_elevation (points : list Point)
    (elevations : list (option Q)) :
  length points = length elevations ->
  Forall (fun e => e = None) elevations ->
  exists profile,
    build_profile_from_points points elevations = Ok profile /\
    Forall (fun e => snd (fst e) == 0) profile.
Proof.
  intros Hlen Hnone.
  destruct (build_profile_entries points elevations Hlen)
    as (profile & E & Hl & Hent).
  exists profile. split; [exact E|].
  apply Forall_forall. intros e He.
  destruct (In_nth profile e (0, 0, 1) He) as (i & Hi & <-).
  assert (L : (2 <= length points)%nat) by lia.
  destruct (Hent L) as (z & Hz & Hentry).
  specialize (Hentry i (0, 0, 1) ltac:(lia)).
  assert (Hzero : z = repeat 0 (length points)).
  { unfold repair_elevations in Hz.
    assert (A : forallb isnan elevations = true).
    { apply forallb_forall. intros x Hx.
      rewrite Forall_forall in Hnone. rewrite (Hnone x Hx). reflexivity. }
    rewrite A in Hz. injection Hz as <-. reflexivity. }
  subst z. unfold profile_entry in Hentry.
  rewrite !nth_repeat in Hentry.
  destruct (Qle_bool _ (1 # 1000000000)).
  { injection Hentry as <-. simpl. reflexivity. }
  destruct (Qeq_bool _ 0); [discriminate|].
  injection Hentry as <-. simpl. unfold Qdiv. ring.
Qed.

(** ** The profile and the radii of a line *)



(** ** More on truncation *)

(** The fallback appends vertices of the line and then one last point. *)
Lemma cut_fallback_shape (rest : list Point) :
  forall (a : Point) (acc end_ : Q),
    rest <> [] ->
    end_ <= acc + line_length (a :: rest) ->
    exists k pt, cut_fallback (a :: rest) acc end_ = firstn k rest ++ [pt].
Proof.
  induction rest as [|b tl IH]; intros a acc end_ Hne Hend; [congruence|].
  rewrite line_length_cons in Hend.
  change (cut_fallback (a :: b :: tl) acc end_) with
    (if Qlt_bool (acc + distance a b) (end_ - (1 # 1000000000))
     then b :: cut_fallback (b :: tl) (acc + distance a b) end_
     else
       if Qle_bool (distance a b) (1 # 1000000000000) then [a]
       else [(px a + (end_ - acc) / distance a b * (px b - px a),
              py a + (end_ - acc) / distance a b * (py b - py a))]).
  destruct (Qlt_bool (acc + distance a b) (end_ - (1 # 1000000000))) eqn:C.
  - apply Qlt_bool_true in C.
    destruct tl as [|c tl'].
    + simpl line_length in Hend. lra.
    + destruct (IH b (acc + distance a b) end_) as (k & pt & E);
        [discriminate | lra |].
      rewrite E. exists (S k), pt. reflexivity.
  - destruct (Qle_bool (distance a b) (1 # 1000000000000));
      eexists 0%nat; eexists; reflexivity.
Qed.

(** X15: cutting a line strictly inside it ([0 < length < line.length])
    when [substring] raises goes through the fallback, which returns the
    first [k >= 1] coordinates of the line followed by one more point: the
    cut starts at the start of the line, runs along its vertices, and has
    at least two points. *)
Theorem cut_linestring_fallback_shape (line : LineString) (d : Q) :
  0 < d -> d < line_length line ->
  shapely_substring line 0 d = None ->
  exists k pt,
    (1 <= k)%nat /\
    cut_linestring_at_length line d = Ok (firstn k line ++ [pt]).
Proof.
  intros Hd Hlt Hsub. unfold cut_linestring_at_length. cbv zeta.
  destruct (py_max_cases 0 d) as [[_ E] | [H _]]; [|lra]. rewrite E.
  destruct (py_min_cases d (line_length line)) as [[H _] | [_ E']]; [lra|].
  rewrite E'.
  assert (C1 : Qle_bool d 0 = false) by (apply Qle_bool_false; exact Hd).
  assert (C2 : Qle_bool (line_length line) d = false)
    by (apply Qle_bool_false; exact Hlt).
  rewrite C1, C2, Hsub.
  destruct line as [|p0 rest]; [simpl in Hlt; lra|].
  destruct rest as [|b tl]; [simpl in Hlt; lra|].
  destruct (cut_fallback_shape (b :: tl) p0 0 d) as (k & pt & Ek);
    [discriminate | lra |].
  rewrite Ek. exists (S k), pt. split; [lia | reflexivity].
Qed.

(** X16: [cut_linestring_at_length] raises only on the line without
    coordinates, where it raises [IndexError] for every length; on any other
    line it returns a line, whether [substring] raises or not. *)
Theorem cut_linestring_raises_iff (line : LineString) (d : Q) :
  ((exists x, cut_linestring_at_length line d = Raise x) <-> line = []) /\
  (line = [] -> cut_linestring_at_length line d = Raise IndexError).
Proof.
  unfold cut_linestring_at_length. cbv zeta.
  destruct line as [|p0 rest].
  - pose proof (py_min_glb (py_max 0 d) (line_length [])) as [_ M].
    simpl line_length in *. apply Qle_bool_iff in M. rewrite M.
    split; [|reflexivity]. split; [reflexivity | eauto].
  - split; [|discriminate].
    split; [|discriminate]. intros [x H]. exfalso.
    destruct (Qle_bool _ 0); [discriminate|].
    destruct (Qle_bool _ _); [discriminate|].
    destruct (shapely_substring _ _ _); discriminate.
Qed.

(** ** More on curvature *)

(** X17: three points on one straight line have no radius: the segment
    between the second and the third, when it is neither the first nor the
    last segment of the sequence, gets [None]. *)
Theorem compute_segment_radii_collinear (points : list Point) (i : nat) :
  (3 <= length points)%nat -> (i < length points - 1)%nat ->
  let a := nth (i - 1) points (0, 0) in
  let b := nth i points (0, 0) in
  let c := nth (i + 1) points (0, 0) in
  (px b - px a) * (py c - py a) == (py b - py a) * (px c - px a) ->
  nth i (compute_segment_radii points) (Some 0) = None.
Proof.
  cbv zeta. intros Hn Hi Hcol.
  unfold compute_segment_radii. cbv zeta.
  assert (L : (length points <? 3)%nat = false) by (apply Nat.ltb_ge; lia).
  rewrite L.
  rewrite (nth_map_lt _ _ i (Some 0) 0%nat) by (rewrite length_seq; lia).
  rewrite seq_nth by lia. simpl Nat.add.
  unfold segment_radius.
  destruct ((i =? 0)%nat || (i =? length points - 2)%nat); [reflexivity|].
  set (area2 := triangle_area_doubled _ _ _ _ _ _).
  assert (Ha : area2 <= 1 # 1000000).
  { unfold area2, triangle_area_doubled.
    set (x := _ - _).
    assert (Hx : x == 0) by (unfold x; lra).
    rewrite Hx. simpl. lra. }
  apply Qle_bool_iff in Ha. rewrite Ha. reflexivity.
Qed.

(** ** The edges of a graph *)

(** X18: [ensure_edge_geometries] keeps the edges, their number and
    their identifiers, leaves every edge that has a geometry as it is, and
    changes nothing when it is called again. *)
Theorem ensure_edge_geometries_idempotent (nodes : Z -> NodeData)
    (edges : list Edge) :
  ensure_edge_geometries nodes (ensure_edge_geometries nodes edges)
    = ensure_edge_geometries nodes edges /\
  map (fun ed => (edge_u ed, edge_v ed, edge_key ed))
      (ensure_edge_geometries nodes edges)
    = map (fun ed => (edge_u ed, edge_v ed, edge_key ed)) edges /\
  (forall i d g,
     edge_geometry (nth i edges d) = Some g ->
     nth i (ensure_edge_geometries nodes edges) d = nth i edges d).
Proof.
  assert (Hstep : forall ed,
             ensure_edge_geometry nodes (ensure_edge_geometry nodes ed)
               = ensure_edge_geometry nodes ed).
  { intro ed. unfold ensure_edge_geometry at 2.
    destruct (edge_geometry ed) eqn:G.
    - unfold ensure_edge_geometry. rewrite G. reflexivity.
    - destruct (node_x (nodes (edge_u ed))) eqn:A;
        [destruct (node_y (nodes (edge_u ed))) eqn:B;
         [destruct (node_x (nodes (edge_v ed))) eqn:C;
          [destruct (node_y (nodes (edge_v ed))) eqn:D|]|]|];
        try reflexivity;
        unfold ensure_edge_geometry; rewrite G, A; try rewrite B;
        try rewrite C; try rewrite D; reflexivity. }
  assert (Hid : forall ed,
             (edge_u (ensure_edge_geometry nodes ed),
              edge_v (ensure_edge_geometry nodes ed),
              edge_key (ensure_edge_geometry nodes ed))
             = (edge_u ed, edge_v ed, edge_key ed)).
  { intro ed. unfold ensure_edge_geometry.
    destruct (edge_geometry ed); [reflexivity|].
    destruct (node_x (nodes (edge_u ed))); [|reflexivity].
    destruct (node_y (nodes (edge_u ed))); [|reflexivity].
    destruct (node_x (nodes (edge_v ed))); [|reflexivity].
    destruct (node_y (nodes (edge_v ed))); reflexivity. }
  unfold ensure_edge_geometries. split; [|split].
  - rewrite map_map. apply map_ext. exact Hstep.
  - rewrite map_map. apply map_ext. exact Hid.
  - intros i d g. revert i.
    induction edges as [|ed tl IH]; intros i Hg.
    + destruct i; reflexivity.
    + destruct i as [|i]; simpl in *.
      * unfold ensure_edge_geometry. rewrite Hg. reflexivity.
      * apply IH. exact Hg.
Qed.

(** A line longer than 1 m is densified to at least one point. *)
Lemma densify_linestring_nonempty (line : LineString) (step_m : Q) :
  0 < line_length line -> densify_linestring line step_m <> [].
Proof.
  intro Hpos. rewrite (densify_positive line step_m Hpos).
  destruct (np_arange _ _ _); discriminate.
Qed.

(** X19: when the read of the raster raises for every list of points,
    [process_edges] returns the empty list, for every graph and for all
    parameters: each edge is skipped and nothing is raised. *)
Theorem process_edges_failing_dem (edges : list Edge) (step_m v0 : Q)
    (p : PhysicalParams) :
  (forall points, exists x, dem_sample points = Raise x) ->
  process_edges edges step_m v0 p = Ok [].
Proof.
  intro Hdem.
  assert (Hone : forall ed, process_edge step_m v0 p ed = Ok None).
  { intro ed. unfold process_edge.
    destruct (edge_geometry ed) as [geom|]; [|reflexivity].
    destruct (Qlt_bool 1 (line_length geom)) eqn:L; [|reflexivity].
    apply Qlt_bool_true in L. simpl negb. cbv iota.
    unfold build_profile_and_radii. cbv zeta.
    pose proof (densify_linestring_nonempty geom step_m ltac:(lra)) as Hne.
    destruct (densify_linestring geom step_m) as [|pt pts]; [congruence|].
    unfold sample_dem_points.
    destruct (Hdem (pt :: pts)) as [x Hx]. rewrite Hx. reflexivity. }
  induction edges as [|ed tl IH]; [reflexivity|].
  simpl. rewrite Hone, IH. reflexivity.
Qed.

(** X20: [process_edges] treats the edges one by one: over two lists of
    edges end to end it returns the records of the first followed by the
    records of the second, and raises when either raises. *)
Theorem process_edges_app (edges1 edges2 : list Edge) (step_m v0 : Q)
    (p : PhysicalParams) :
  process_edges (edges1 ++ edges2) step_m v0 p =
    do r1 <- process_edges edges1 step_m v0 p;
    do r2 <- process_edges edges2 step_m v0 p;
    Ok (r1 ++ r2).
Proof.
  induction edges1 as [|ed tl IH].
  - simpl. destruct (process_edges edges2 step_m v0 p); reflexivity.
  - simpl. destruct (process_edge step_m v0 p ed) as [r|x]; [|reflexivity].
    simpl. rewrite IH.
    destruct (process_edges tl step_m v0 p) as [r1|x]; [|reflexivity].
    simpl.
    destruct (process_edges edges2 step_m v0 p) as [r2|x]; [|reflexivity].
    simpl. destruct r; reflexivity.
Qed.





(** ** The synthetic profile *)

(** The integer part of a float that is not negative is at most the
    float, and within 1 of it. *)
Lemma py_int_bounds (x : Q) :
  0 <= x -> (0 <= py_int x)%Z /\ inject_Z (py_int x) <= x /\
            x < inject_Z (py_int x) + 1.
Proof.
  intro Hx. unfold py_int. destruct x as [n d].
  assert (Hn : (0 <= n)%Z).
  { unfold Qle in Hx. simpl in Hx. lia. }
  simpl Qnum. simpl Qden. rewrite Z.quot_div_nonneg by lia.
  pose proof (Z.div_pos n (Z.pos d) Hn ltac:(lia)) as H0.
  pose proof (Z.mul_div_le n (Z.pos d) ltac:(lia)) as H1.
  pose proof (Z.mul_succ_div_gt n (Z.pos d) ltac:(lia)) as H2.
  split; [exact H0|].
  unfold Qle, Qlt, inject_Z, Qplus. simpl. split; nia.
Qed.

Lemma sum_ds_app (l1 l2 : list entry) :
  sum_ds (l1 ++ l2) == sum_ds l1 + sum_ds l2.
Proof.
  induction l1 as [|e l IH].
  - simpl app. change (sum_ds []) with 0. lra.
  - change (sum_ds ((e :: l) ++ l2))
      with (fst (fst e) + sum_ds (l ++ l2)).
    change (sum_ds (e :: l)) with (fst (fst e) + sum_ds l).
    rewrite IH. lra.
Qed.

Lemma sum_ds_repeat (e : entry) (n : nat) :
  sum_ds (repeat e n) == inject_Z (Z.of_nat n) * fst (fst e).
Proof.
  induction n as [|n IH].
  - change (sum_ds (repeat e 0)) with 0.
    change (inject_Z (Z.of_nat 0)) with 0. lra.
  - change (sum_ds (repeat e (S n)))
      with (fst (fst e) + sum_ds (repeat e n)).
    rewrite IH, Nat2Z.inj_succ. unfold Z.succ. rewrite inject_Z_plus.
    change (inject_Z 1) with 1. lra.
Qed.

(** X23: [add(seg_len, slope)] of the synthetic profile, for a length
    [seg_len >= 0], appends entries of 10 m each that add up to at most
    [seg_len] and to more than [seg_len - 10]; it keeps the entries before
    and every [ds] non-negative. *)
Theorem demo_add_length (prof : list entry) (seg_len slope : Q) :
  0 <= seg_len ->
  sum_ds (demo_add prof seg_len slope) <= sum_ds prof + seg_len /\
  sum_ds prof + seg_len - 10 < sum_ds (demo_add prof seg_len slope) /\
  firstn (length prof) (demo_add prof seg_len slope) = prof /\
  (Forall (fun e => 0 <= fst (fst e)) prof ->
   Forall (fun e => 0 <= fst (fst e)) (demo_add prof seg_len slope)).
Proof.
  intro Hs. unfold demo_add. cbv zeta.
  set (e := (10, _, _)).
  assert (Hq : 0 <= seg_len / 10) by (apply Qle_shift_div_l; lra).
  destruct (py_int_bounds (seg_len / 10) Hq) as (H0 & H1 & H2).
  set (k := py_int (seg_len / 10)) in *.
  assert (Hsum : sum_ds (prof ++ repeat e (Z.to_nat k))
                 == sum_ds prof + inject_Z k * 10).
  { rewrite sum_ds_app, sum_ds_repeat, Z2Nat.id by exact H0.
    unfold e. simpl fst. reflexivity. }
  assert (Hseg : seg_len / 10 * 10 == seg_len) by field.
  repeat split.
  - rewrite Hsum. lra.
  - rewrite Hsum. lra.
  - rewrite firstn_app, Nat.sub_diag, firstn_all. simpl.
    apply app_nil_r.
  - intro Hall. apply Forall_app. split; [exact Hall|].
    apply Forall_forall. intros x Hx. apply repeat_spec in Hx. subst x.
    unfold e. simpl. lra.
Qed.

(** X8: the [for] loop over two profiles end to end is the loop over the
    first, then, unless the velocity is 0 or less, the loop over the second
    from the state and the entry index the first has reached. *)
Theorem for_loop_app (p1 p2 : list entry) (p : PhysicalParams)
    (radii : option (list (option Q))) (idx : nat) (st : sim_state) :
  for_loop (p1 ++ p2) p radii idx st =
    do st' <- for_loop p1 p radii idx st;
    if Qle_bool (sim_v st') 0 then Ok st'
    else for_loop p2 p radii (idx + length p1) st'.
Proof. exact (for_loop_concat p1 p2 p radii idx st). Qed.

(** ** Entries without length *)

(** An entry with [ds <= 0] leaves the loop variables as they are. *)
Lemma for_loop_skip (e : entry) (rest : list entry) (p : PhysicalParams)
    (radii : option (list (option Q))) (idx : nat) (st : sim_state) :
  fst (fst e) <= 0 ->
  for_loop (e :: rest) p radii idx st = for_loop rest p radii (S idx) st.
Proof.
  intro Hds. rewrite for_loop_cons, while_loop_unfold.
  assert (G : guard e st 0 = false).
  { unfold guard.
    assert (C : Qlt_bool 0 (fst (fst e)) = false)
      by (apply Qlt_bool_false; exact Hds).
    rewrite C. reflexivity. }
  rewrite G. unfold bind.
  destruct (Qle_bool (sim_v st) 0) eqn:V; [|reflexivity].
  destruct rest as [|e2 rest2]; [reflexivity|].
  rewrite for_loop_cons, while_loop_unfold.
  assert (G2 : guard e2 st 0 = false).
  { unfold guard. apply Qle_bool_iff in V.
    assert (C : Qlt_bool 0 (sim_v st) = false)
      by (apply Qlt_bool_false; exact V).
    rewrite C. apply andb_false_r. }
  rewrite G2. unfold bind. rewrite V. reflexivity.
Qed.

(** Without radii the index of an entry plays no part. *)
Lemma for_loop_no_radii_index (profile : list entry) (p : PhysicalParams)
    (idx idx' : nat) (st : sim_state) :
  for_loop profile p None idx st = for_loop profile p None idx' st.
Proof.
  revert idx idx' st. induction profile as [|e rest IH]; intros idx idx' st;
    [reflexivity|].
  rewrite !for_loop_cons. simpl curve_cap.
  destruct (while_loop _ e p None st 0) as [st'|x]; [|reflexivity].
  unfold bind. destruct (Qle_bool (sim_v st') 0); [reflexivity|].
  apply IH.
Qed.

(** X24: in a simulation without radii, an entry with [ds <= 0], such
    as the flat placeholder [(0, 0, 1)] of two points in one place, can be
    left out of the profile: the result is the same. *)
Theorem simulate_segment_skips_degenerate (p1 p2 : list entry) (e : entry)
    (v0 : Q) (p : PhysicalParams) :
  fst (fst e) <= 0 ->
  simulate_segment (p1 ++ e :: p2) v0 p None
    = simulate_segment (p1 ++ p2) v0 p None.
Proof.
  intro Hds. unfold simulate_segment.
  rewrite !for_loop_concat.
  destruct (for_loop p1 p None 0 (mkSim v0 0 0 v0)) as [st'|x];
    [|reflexivity].
  unfold bind at 2 4.
  destruct (Qle_bool (sim_v st') 0); [reflexivity|].
  rewrite (for_loop_skip e p2 p None _ st' Hds).
  rewrite (for_loop_no_radii_index p2 p (S (0 + length p1))
             (0 + length p1) st').
  reflexivity.
Qed.

(** ** The curve cap at the end of an edge *)

(** The velocity of the step is at most the local cap. *)
Lemma step_velocity_local_bound (v ss sc : Q) (p : PhysicalParams) (h : Q)
    (cap v' a : Q) :
  step_velocity v ss sc p h (Some cap) = Ok (v', a) -> v' <= cap.
Proof.
  unfold step_velocity.
  destruct (Qeq_bool (2 * mass p) 0); [discriminate|].
  cbv zeta. intro H. injection H as <- _.
  pose proof (py_min_glb (vmax_cap p) cap) as [_ G]. cmp_cases; lra.
Qed.

(** Every pass under a local cap leaves the velocity at or below it. *)
Lemma loop_body_capped (e : entry) (p : PhysicalParams) (cap : Q)
    (st st' : sim_state) (sl : Q) (next : option Q) :
  0 <= cap ->
  loop_body e p (Some cap) st sl = Ok (st', next) ->
  sim_v st' <= cap.
Proof.
  intros Hcap B. destruct e as [[ds ss] sc]. unfold loop_body in B.
  destruct (step_velocity (sim_v st) ss sc p (dt p) (Some cap))
    as [[v' a]|x] eqn:S1; [|discriminate].
  apply step_velocity_local_bound in S1. unfold bind in B.
  destruct (Qle_bool (v' * dt p) (1 # 1000000)).
  - injection B as <- _. simpl. exact Hcap.
  - destruct (Qlt_bool ds _); injection B as <- _; simpl; exact S1.
Qed.

(** X25: for valid parameters and [v0 >= 0], when the last entry of the
    profile has a positive length and a positive radius [r], the exit
    velocity that [simulate_segment] returns is at most the curve cap of
    that entry, the square root of the product of [mu_curve], [g] and
    [r]. *)
Theorem simulate_segment_exit_capped (pre : list entry) (e : entry)
    (v0 : Q) (p : PhysicalParams) (rs : list (option Q)) (r : Q) :
  valid_params p -> 0 <= v0 -> 0 < fst (fst e) ->
  (length pre < length rs)%nat ->
  nth (length pre) rs None = Some r -> 0 < r ->
  exists s t v vm,
    simulate_segment (pre ++ [e]) v0 p (Some rs) = Ok (s, t, v, vm) /\
    v <= sqrt (py_max 0 (mu_curve p * g p * r)).
Proof.
  intros Hp Hv Hds Hlen Hr Hrpos.
  set (cap := sqrt (py_max 0 (mu_curve p * g p * r))).
  assert (Hcap0 : 0 <= cap).
  { unfold cap. apply sqrt_nonneg. apply py_max_lub. }
  assert (Hcc : curve_cap p (Some rs) (length pre) = Some cap).
  { unfold curve_cap. apply Nat.ltb_lt in Hlen. rewrite Hlen, Hr.
    assert (C : Qlt_bool 0 r = true) by (apply Qlt_bool_true; exact Hrpos).
    rewrite C. reflexivity. }
  assert (Hm : 0 < mass p) by apply Hp.
  unfold simulate_segment. rewrite for_loop_concat.
  destruct (for_loop_bounds v0 p (Some rs) pre Hp 0 (mkSim v0 0 0 v0))
    as (st1 & F & (Jv & _)).
  { unfold outcome_bounds. simpl. repeat split; lra. }
  rewrite F. unfold bind at 2.
  destruct (Qle_bool (sim_v st1) 0) eqn:V.
  - apply Qle_bool_iff in V. unfold bind.
    do 4 eexists. split; [reflexivity|]. lra.
  - apply Qle_bool_false in V. simpl Nat.add.
    rewrite for_loop_cons, Hcc, while_loop_unfold.
    assert (G : guard e st1 0 = true) by (apply guard_true; split; assumption).
    rewrite G.
    destruct (loop_body e p (Some cap) st1 0) as [[st2 next]|x] eqn:B.
    + pose proof (loop_body_capped e p cap st1 st2 0 next Hcap0 B) as H2.
      assert (Hw : exists st3,
                 match next with
                 | Some sl' =>
                     while_loop (substep_bound (fst (fst e)) sl') e p
                       (Some cap) st2 sl'
                 | None => Ok st2
                 end = Ok st3 /\ sim_v st3 <= cap).
      { destruct next as [sl'|]; [|eauto].
        apply (while_loop_invariant (fun st _ => sim_v st <= cap)
                 (fun st => sim_v st <= cap) e p (Some cap) Hm);
          [|auto|exact H2].
        intros st sl st' nx _ _ _ B'.
        pose proof (loop_body_capped e p cap st st' sl nx Hcap0 B') as H.
        destruct nx; exact H. }
      destruct Hw as (st3 & W & H3).
      destruct next as [sl'|]; cbv [bind].
      * rewrite W. destruct (Qle_bool (sim_v st3) 0);
          do 4 eexists; (split; [reflexivity | exact H3]).
      * destruct (Qle_bool (sim_v st2) 0);
          do 4 eexists; (split; [reflexivity | exact H2]).
    + exfalso. destruct e as [[ds ss] sc].
      destruct (loop_body_cases ds ss sc p (Some cap) st1 0 Hm)
        as (v' & a & _ & [[_ B'] | [[_ [_ B']] | [_ [_ B']]]]);
        rewrite B' in B; discriminate.
Qed.

End Core.

(** ** The square root of the examples *)

Lemma sqrt_down_nonneg (x : Q) : 0 <= x -> 0 <= sqrt_down x.
Proof.
  intros _. unfold sqrt_down, Qle. simpl.
  pose proof (Z.sqrt_nonneg (Qnum x * Z.pos (Qden x))). lia.
Qed.

Lemma sqrt_down_pos (x : Q) : 0 < x -> 0 < sqrt_down x.
Proof.
  unfold sqrt_down, Qlt. simpl. intro H.
  assert (Hn : (0 < Qnum x * Z.pos (Qden x))%Z) by lia.
  apply Z.sqrt_pos in Hn. lia.
Qed.

Lemma default_params_valid : valid_params default_params.
Proof.
  unfold valid_params. simpl. repeat split; vm_compute;
    first [reflexivity | discriminate].
Qed.

Lemma frictionless_params_valid : valid_params frictionless_params.
Proof.
  unfold valid_params. simpl. repeat split; vm_compute;
    first [reflexivity | discriminate].
Qed.

(** Closed order facts between rational constants. *)
Ltac q_closed := vm_compute; first [reflexivity | discriminate].

(** ** The properties on examples *)

(** C1 on an example: the defaults, [v = 1], a flat entry, a local cap of
    5 m/s. *)
Lemma step_velocity_nonneg_witness :
  exists v' a,
    step_velocity 1 0 1 default_params 0.1 (Some 5) = Ok (v', a) /\ 0 <= v'.
Proof.
  apply step_velocity_nonneg.
  - exact default_params_valid.
  - q_closed.
  - intros x H. injection H as <-. q_closed.
Defined.

(** C1 as stated fails for a negative local cap: the clamp returns the
    cap. *)
Lemma step_velocity_negative_cap :
  valid_params default_params /\ 0 <= 1 /\
  exists v' a,
    step_velocity 1 0 1 default_params 0.1 (Some (-1)) = Ok (v', a) /\
    v' < 0.
Proof.
  split; [exact default_params_valid|]. split; [q_closed|].
  exists (-1). eexists. split; [vm_compute; reflexivity | q_closed].
Qed.

(** C2 on an example: 10 m/s on the frictionless flat. *)
Lemma step_velocity_flat_frictionless_witness :
  exists v' a,
    step_velocity 10 0 1 frictionless_params 0.1 None = Ok (v', a) /\
    a == 0 /\ v' == 10.
Proof.
  apply step_velocity_flat_frictionless.
  - exact frictionless_params_valid.
  - reflexivity.
  - reflexivity.
  - q_closed.
  - q_closed.
  - intros x H. discriminate H.
Defined.

(** C2 as stated fails above the cap: 40 m/s comes back as [vmax_cap]. *)
Lemma step_velocity_clamps_above_cap :
  valid_params frictionless_params /\
  crr frictionless_params == 0 /\ cda frictionless_params == 0 /\
  0 <= 40 /\
  exists v' a,
    step_velocity 40 0 1 frictionless_params 0.1 None = Ok (v', a) /\
    ~ v' == 40.
Proof.
  split; [exact frictionless_params_valid|].
  split; [reflexivity|]. split; [reflexivity|]. split; [q_closed|].
  exists 35. eexists. split; [vm_compute; reflexivity | q_closed].
Qed.

(** C6 on an example: 20 m/s into a curve whose cap is 5 m/s. *)
Lemma step_velocity_capped_witness :
  exists v' a,
    step_velocity 20 0 1 default_params 0.1 (Some 5) = Ok (v', a) /\
    v' <= Qmin (vmax_cap default_params) 5.
Proof.
  exact (step_velocity_capped 20 0 1 default_params 0.1 (Some 5)
           default_params_valid).
Defined.





(** C5 on an example: from 5 mm/s on the flat the first pass still moves,
    the second stalls, and the 100 m entry that follows adds nothing. *)
Lemma stall_ends_simulation_witness :
  exists s t vm,
    simulate_segment sqrt_down [(1, 0, 1); (100, 0, 1)] (5 # 1000)
      default_params None = Ok (s, t, 0, vm) /\
    s == 29303501 # 272000000000 /\ t == 1 # 10 /\ vm == 5 # 1000.
Proof.
  eexists. eexists. eexists. split.
  - eapply (stall_ends_simulation sqrt_down
              [(1, 0, 1); (100, 0, 1)] (5 # 1000) default_params None
              0 (1, 0, 1) [(100, 0, 1)]).
    + eapply at_next_pass.
      * apply at_first. reflexivity.
      * vm_compute. reflexivity.
      * vm_compute. reflexivity.
    + vm_compute. reflexivity.
    + vm_compute. reflexivity.
    + q_closed.
  - simpl. repeat split; q_closed.
Defined.

(** C7 on an example: the line (0,0), (3,0), (3,4) sampled every 2 m. *)
Lemma densify_linestring_shape_witness :
  last (densify_linestring sqrt_down [(0, 0); (3, 0); (3, 4)] 2) (0, 0)
    = (3, 4) /\
  le 2 (length (densify_linestring sqrt_down [(0, 0); (3, 0); (3, 4)] 2)).
Proof.
  destruct (densify_linestring_shape sqrt_down sqrt_down_nonneg
              sqrt_down_pos (0, 0) [(3, 0); (3, 4)] 2) as (H1 & _ & H3).
  split; [exact H1|]. apply H3. q_closed.
Defined.

(** C7 as stated fails on the line without coordinates: it has no length,
    and the result is empty, not two points. *)
Lemma densify_empty_line :
  line_length sqrt_down [] <= 0 /\
  densify_linestring sqrt_down [] 1 = [] /\
  forall a b, densify_linestring sqrt_down [] 1 <> [a; b].
Proof.
  split; [q_closed|]. split; [reflexivity|].
  intros a b H. discriminate H.
Qed.

(** C8 on an example: five points round a corner. *)
Lemma compute_segment_radii_shape_witness :
  let radii :=
    compute_segment_radii sqrt_down
      [(0, 0); (3, 0); (3, 4); (0, 4); (0, 8)] in
  Z.of_nat (length radii) = 4%Z /\
  last radii (Some 0) = None /\
  (forall r, In (Some r) radii -> 0 < r).
Proof.
  destruct (compute_segment_radii_shape sqrt_down
              [(0, 0); (3, 0); (3, 4); (0, 4); (0, 8)])
    as (H1 & _ & H3 & _ & H5).
  split; [exact H1|]. split; [|exact H5].
  apply H3. discriminate.
Defined.

(** C9 on an example: the line (0,0), (3,0), (3,4), cut at 0 and at 9. *)
Lemma cut_linestring_ends_witness :
  cut_linestring_at_length sqrt_down no_substring
    [(0, 0); (3, 0); (3, 4)] 0 = Ok [(0, 0); (0, 0)] /\
  cut_linestring_at_length sqrt_down no_substring
    [(0, 0); (3, 0); (3, 4)] 9 = Ok [(0, 0); (3, 0); (3, 4)].
Proof.
  split.
  - apply (proj1 (cut_linestring_ends sqrt_down no_substring
                    [(0, 0); (3, 0); (3, 4)] 0)
             ltac:(q_closed) (0, 0) [(3, 0); (3, 4)] eq_refl).
  - apply (proj2 (cut_linestring_ends sqrt_down no_substring
                    [(0, 0); (3, 0); (3, 4)] 9)); q_closed.
Defined.

(** C9 as stated fails on lines without length: with three coordinates in
    one place, a cut at 1 m, beyond the length, returns two coordinates and
    not the line; and on the line without coordinates a cut at 0 raises. *)
Lemma cut_zero_length_line :
  line_length sqrt_down [(0, 0); (0, 0); (0, 0)] <= 1 /\
  cut_linestring_at_length sqrt_down no_substring
    [(0, 0); (0, 0); (0, 0)] 1 = Ok [(0, 0); (0, 0)] /\
  cut_linestring_at_length sqrt_down no_substring
    [(0, 0); (0, 0); (0, 0)] 1 <> Ok [(0, 0); (0, 0); (0, 0)] /\
  cut_linestring_at_length sqrt_down no_substring [] 0 = Raise IndexError.
Proof.
  split; [q_closed|]. split; [vm_compute; reflexivity|].
  split; [|vm_compute; reflexivity].
  intro H. vm_compute in H. discriminate H.
Qed.

(** C10 on an example: five points with four elevations raise; five with
    five, two of them missing, do not. *)
Lemma build_profile_raises_iff_witness :
  (exists x,
     build_profile_from_points sqrt_down
       [(0, 0); (3, 0); (3, 4); (0, 4); (0, 8)]
       [None; Some 1; None; Some 4] = Raise x) /\
  ~ (exists x,
       build_profile_from_points sqrt_down
         [(0, 0); (3, 0); (3, 4); (0, 4); (0, 8)]
         [None; Some 1; None; Some 4; None] = Raise x).
Proof.
  split.
  - apply (proj1 (build_profile_raises_iff sqrt_down sqrt_down_pos
                    [(0, 0); (3, 0); (3, 4); (0, 4); (0, 8)]
                    [None; Some 1; None; Some 4])).
    simpl. discriminate.
  - intro H.
    apply (proj1 (build_profile_raises_iff sqrt_down sqrt_down_pos
                    [(0, 0); (3, 0); (3, 4); (0, 4); (0, 8)]
                    [None; Some 1; None; Some 4; None])) in H.
    apply H. reflexivity.
Defined.

(** ** Runs of the definitions *)

(** The line (0,0), (3,0), (3,4) sampled every 2 m: the samples at 0, 2, 4
    and 6 m, then the end at 7 m. *)
Example densify_linestring_run :
  map reduced_point
    (densify_linestring sqrt_down [(0, 0); (3, 0); (3, 4)] 2)
  = [(0, 0); (2, 0); (3, 1); (3, 3); (3, 4)].
Proof. vm_compute. reflexivity. Qed.

(** The two inner segments of a path of right angles with legs 3 and 4
    get the radius 5/2 of the circle through the corner's triangle. *)
Example compute_segment_radii_run :
  map (option_map Qred)
    (compute_segment_radii sqrt_down
       [(0, 0); (3, 0); (3, 4); (0, 4); (0, 8)])
  = [None; Some (5 # 2); Some (5 # 2); None].
Proof. vm_compute. reflexivity. Qed.

(** Missing elevations at both ends and in the middle: the ends take the
    nearest sample, the middle the mean of its neighbours. *)
Example repair_elevations_run :
  repair_elevations 5 [None; Some 1; None; Some 4; None]
  = Ok [1; 1; 5 # 2; 4; 4].
Proof. vm_compute. reflexivity. Qed.

(** A climb of 3 m over 4 m of road: the slope has sine 3/5 and cosine
    4/5; two points in one place give the flat entry of no length. *)
Example build_profile_from_points_run :
  match build_profile_from_points sqrt_down
          [(0, 0); (4, 0); (4, 0)] [Some 10; Some 13; None] with
  | Ok profile => map reduced_entry profile
  | Raise _ => []
  end
  = [(4, 3 # 5, 4 # 5); (0, 0, 1)].
Proof. vm_compute. reflexivity. Qed.

(** A radius of 10 m with the default friction caps the speed between 5.85
    and 5.86 m/s, and 20 m/s entering it leaves the first step at the
    cap. *)
Example curve_cap_run :
  match curve_cap sqrt_down default_params (Some [Some 10]) 0 with
  | Some cap =>
      5.85 < cap /\ cap < 5.86 /\
      match step_velocity 20 0 1 default_params 0.1 (Some cap) with
      | Ok (v', _) => v' == cap
      | Raise _ => False
      end
  | None => False
  end.
Proof. vm_compute. repeat split; congruence. Qed.

(** The fallback of the cut, 4 m along the line (0,0), (3,0), (3,4). *)
Example cut_linestring_at_length_run :
  match cut_linestring_at_length sqrt_down no_substring
          [(0, 0); (3, 0); (3, 4)] 4 with
  | Ok line => map reduced_point line
  | Raise _ => []
  end
  = [(0, 0); (3, 0); (3, 1)].
Proof. vm_compute. reflexivity. Qed.

(** One edge of 3/2 m on flat ground with a time step of 2 s: the single
    pass overshoots and is corrected, the whole edge is coasted and keeps
    its geometry; the edge without geometry is skipped. *)
Example process_edges_run :
  match process_edges sqrt_down no_substring flat_dem
          [mkEdge 1 2 0 (Some [(0, 0); (3 # 2, 0)]); mkEdge 2 3 0 None]
          4 1 (mkParams 85 0.004 0.30 1.225 0.35 9.80665 2 35) with
  | Ok [rec] =>
      res_u rec = 1%Z /\ res_v rec = 2%Z /\
      length_m rec == 3 # 2 /\ coast_distance_m rec == 3 # 2 /\
      0 < coast_time_s rec /\ coast_time_s rec < 2 /\
      0 < v_out_mps rec /\ v_out_mps rec < 1 /\ v_max_mps rec == 1 /\
      res_geometry rec = [(0, 0); (3 # 2, 0)]
  | _ => False
  end.
Proof. vm_compute. repeat split; congruence. Qed.

(** ** More properties on examples *)

(** X1 on an example: 5 m/s up a slope of sine 1/10. *)
Lemma step_velocity_retards_witness :
  exists v' a,
    step_velocity 5 (1 # 10) 1 default_params 0.1 None = Ok (v', a) /\
    a <= 0 /\ v' <= 5.
Proof.
  apply step_velocity_retards;
    [exact default_params_valid | q_closed ..].
Defined.

(** X2 on an example: a climb and a descent under a curve cap. *)
Lemma simulate_segment_velocity_bounds_witness :
  exists s t v vm,
    simulate_segment sqrt_down [(20, 1 # 10, 1); (30, - (1 # 10), 1)] 1
      default_params (Some [None; Some 10]) = Ok (s, t, v, vm) /\
    v <= vm /\ vm <= Qmax 1 (vmax_cap default_params).
Proof.
  apply (simulate_segment_velocity_bounds sqrt_down sqrt_down_nonneg).
  - exact default_params_valid.
  - q_closed.
Defined.

(** X4 on an example: at rest at the top of a descent. *)
Lemma simulate_segment_at_rest_witness :
  simulate_segment sqrt_down [(100, - (1 # 10), 1)] 0 default_params None
    = Ok (0, 0, 0, 0).
Proof.
  apply (simulate_segment_at_rest sqrt_down). q_closed.
Defined.

(** X6 on an example: the radii of a line of two points. *)
Lemma simulate_segment_no_cap_witness :
  simulate_segment sqrt_down [(20, - (1 # 10), 1)] 1 default_params
    (Some [None; Some (- (1))])
  = simulate_segment sqrt_down [(20, - (1 # 10), 1)] 1 default_params None.
Proof.
  apply (simulate_segment_no_cap sqrt_down).
  repeat constructor. simpl. q_closed.
Defined.

(** X7 on an example: the defaults with the mass set to 0. *)
Lemma simulate_segment_zero_mass_witness :
  simulate_segment sqrt_down [(0, 0, 1); (20, 0, 1)] 1
    (mkParams 0 0.004 0.30 1.225 0.35 9.80665 0.1 35) None
  = Raise ZeroDivisionError.
Proof.
  apply (simulate_segment_zero_mass sqrt_down).
  - reflexivity.
  - q_closed.
  - apply Exists_cons_tl. apply Exists_cons_hd. simpl. q_closed.
Defined.

(** X10 on an example: the sample at index 3 of five elevations. *)
Lemma repair_elevations_keeps_samples_witness :
  exists z',
    repair_elevations 5 [None; Some 1; None; Some 4; None] = Ok z' /\
    length z' = 5%nat /\ nth 3 z' 0 = 4.
Proof.
  apply repair_elevations_keeps_samples;
    [reflexivity | lia | lia | reflexivity].
Defined.

(** X11 on an example: three points, two of them in one place. *)
Lemma build_profile_shape_witness :
  exists profile,
    build_profile_from_points sqrt_down [(0, 0); (4, 0); (4, 0)]
      [Some 10; Some 13; None] = Ok profile /\
    length profile = 2%nat /\
    Forall (fun e => e = (0, 0, 1) \/
                     ((1 # 1000000000) < fst (fst e) /\ 0 < snd e)) profile /\
    Forall (fun e => 0 <= fst (fst e)) profile.
Proof.
  apply (build_profile_shape sqrt_down sqrt_down_pos
           [(0, 0); (4, 0); (4, 0)] [Some 10; Some 13; None]).
  reflexivity.
Defined.

(** X12 on an example: up 3 m, then down 5 m. *)
Lemma build_profile_slope_sign_witness :
  exists profile,
    build_profile_from_points sqrt_down [(0, 0); (4, 0); (8, 0)]
      (map Some [10; 13; 8]) = Ok profile /\
    0 < snd (fst (nth 0 profile (0, 0, 1))) /\
    snd (fst (nth 1 profile (0, 0, 1))) < 0.
Proof.
  destruct (build_profile_slope_sign sqrt_down sqrt_down_pos
              [(0, 0); (4, 0); (8, 0)] [10; 13; 8] eq_refl)
    as (profile & E & H).
  exists profile. split; [exact E|].
  assert (P : profile = nth 0 profile (0, 0, 1)
                        :: nth 1 profile (0, 0, 1) :: nil
              /\ 0 < fst (fst (nth 0 profile (0, 0, 1)))
              /\ 0 < fst (fst (nth 1 profile (0, 0, 1)))).
  { vm_compute in E. injection E as <-. vm_compute. repeat split. }
  destruct P as (_ & D0 & D1).
  split.
  - apply (H 0%nat ltac:(simpl; lia) D0). q_closed.
  - apply (H 1%nat ltac:(simpl; lia) D1). q_closed.
Defined.

(** X13 on an example: three points outside the raster. *)
Lemma build_profile_no_elevation_witness :
  exists profile,
    build_profile_from_points sqrt_down [(0, 0); (4, 0); (8, 3)]
      [None; None; None] = Ok profile /\
    Forall (fun e => snd (fst e) == 0) profile.
Proof.
  apply (build_profile_no_elevation sqrt_down sqrt_down_pos).
  - reflexivity.
  - repeat constructor.
Defined.


(** X15 on an example: 4 m along the line (0,0), (3,0), (3,4). *)
Lemma cut_linestring_fallback_shape_witness :
  exists k pt,
    (1 <= k)%nat /\
    cut_linestring_at_length sqrt_down no_substring
      [(0, 0); (3, 0); (3, 4)] 4
    = Ok (firstn k [(0, 0); (3, 0); (3, 4)] ++ [pt]).
Proof.
  apply (cut_linestring_fallback_shape sqrt_down no_substring).
  - q_closed.
  - q_closed.
  - reflexivity.
Defined.

(** X17 on an example: a straight stretch before a corner. *)
Lemma compute_segment_radii_collinear_witness :
  nth 1 (compute_segment_radii sqrt_down
           [(0, 0); (2, 0); (5, 0); (5, 4)]) (Some 0) = None.
Proof.
  apply (compute_segment_radii_collinear sqrt_down
           [(0, 0); (2, 0); (5, 0); (5, 4)] 1).
  - simpl. lia.
  - simpl. lia.
  - reflexivity.
Defined.

(** X19 on an example: two edges and a raster that cannot be read. *)
Lemma process_edges_failing_dem_witness :
  process_edges sqrt_down no_substring failing_dem
    [mkEdge 1 2 0 (Some [(0, 0); (3, 0); (3, 4)]); mkEdge 2 3 0 None]
    4 1 default_params = Ok [].
Proof.
  apply (process_edges_failing_dem sqrt_down no_substring failing_dem).
  intro points. exists RasterError. reflexivity.
Defined.



(** X23 on an example: 25 m give two entries of 10 m. *)
Lemma demo_add_length_witness :
  sum_ds (demo_add sqrt_down [] 25 (- (0.01))) <= sum_ds [] + 25 /\
  sum_ds [] + 25 - 10 < sum_ds (demo_add sqrt_down [] 25 (- (0.01))).
Proof.
  destruct (demo_add_length sqrt_down [] 25 (- (0.01)) ltac:(q_closed))
    as (H1 & H2 & _).
  split; [exact H1 | exact H2].
Defined.

(** X24 on an example: the flat placeholder between two entries. *)
Lemma simulate_segment_skips_degenerate_witness :
  simulate_segment sqrt_down
    ([(20, - (1 # 10), 1)] ++ (0, 0, 1) :: [(30, 0, 1)]) 1
    default_params None
  = simulate_segment sqrt_down ([(20, - (1 # 10), 1)] ++ [(30, 0, 1)]) 1
      default_params None.
Proof.
  apply (simulate_segment_skips_degenerate sqrt_down). simpl. q_closed.
Defined.

(** X25 on an example: 20 m/s into a last entry of radius 10 m. *)
Lemma simulate_segment_exit_capped_witness :
  exists s t v vm,
    simulate_segment sqrt_down ([(5, 0, 1)] ++ [(8, 0, 1)]) 20
      default_params (Some [None; Some 10]) = Ok (s, t, v, vm) /\
    v <= sqrt_down (py_max 0 (mu_curve default_params * g default_params
                              * 10)).
Proof.
  apply (simulate_segment_exit_capped sqrt_down sqrt_down_nonneg
           [(5, 0, 1)] (8, 0, 1) 20 default_params [None; Some 10] 10).
  - exact default_params_valid.
  - q_closed.
  - simpl. q_closed.
  - simpl. lia.
  - reflexivity.
  - q_closed.
Defined.

(** The synthetic profile has 1200 entries of 10 m, 12 km in all. *)
Example demo_profile_run :
  length (demo_profile sqrt_down) = 1200%nat /\
  sum_ds (demo_profile sqrt_down) == 12000.
Proof. vm_compute. split; reflexivity. Qed.

(** An edge without geometry between two nodes with coordinates gets the
    straight line between them; with a node without coordinates it stays
    as it is. *)
Example ensure_edge_geometries_run :
  ensure_edge_geometries
    (fun n => if (n =? 3)%Z then mkNode None None
              else mkNode (Some (inject_Z n)) (Some 0))
    [mkEdge 1 2 0 None; mkEdge 2 3 0 None;
     mkEdge 1 3 0 (Some [(0, 0); (5, 5)])]
  = [mkEdge 1 2 0 (Some [(1, 0); (2, 0)]); mkEdge 2 3 0 None;
     mkEdge 1 3 0 (Some [(0, 0); (5, 5)])].
Proof. vm_compute. reflexivity. Qed.

(** ** Binary64 on examples *)

(** The float nearest to [0.1], and the sum [0.1 + 0.2] of the floats. *)
Example round_b64_run :
  round_b64 0.1 = 3602879701896397 # 36028797018963968 /\
  round_b64 (round_b64 0.1 + round_b64 0.2)
    = 1351079888211149 # 4503599627370496.
Proof. split; vm_compute; reflexivity. Qed.

(** Ten entries of 20 m down a slope of sine 0.1, from 1 m/s, in binary64:
    the distance is [200 + 2^-44], printed 200.00000000000006, and the exit
    velocity is printed 16.029021064002112. *)
Example simulate_segment_fl_run :
  simulate_segment_fl sqrt_down round_b64 1000
    (map entry_b64 (repeat (20, - (1 # 10), 0.99498743710662) 10)) 1
    (params_b64 default_params) None
  = Some (Ok (3518437208883201 # 17592186044416,
              1472164600524351 # 70368744177664,
              4511768330684609 # 281474976710656,
              4511768330684609 # 281474976710656)).
Proof. vm_compute. reflexivity. Qed.

(** On an example the exact run is the rounded run without rounding. *)
Example simulate_segment_fl_no_rounding_run :
  simulate_segment_fl sqrt_down no_rounding 11
    [(1 # 100000, 0, 1); (5 # 1000000, 0, 1)] 10 default_params None
  = Some (simulate_segment sqrt_down
            [(1 # 100000, 0, 1); (5 # 1000000, 0, 1)] 10 default_params
            None).
Proof.
  apply simulate_segment_fl_no_rounding.
  repeat (apply Forall_cons; [vm_compute; lia|]). apply Forall_nil.
Qed.
